(** * EMLX native layer: resource handles and the NIF call bridge

    A shallow embedding of the two mechanisms of [c_src/emlx_nif.cpp] and
    [c_src/nif_call.h] that control lifetimes:

    - [ArrayP], the scoped reference that guards every use of an MLX array
      resource with an atomic counter and a one-shot flag, together with
      [create_array_resource] and the resource finalizer [free_array];
    - [prepare_nif_call], [make_nif_call], [nif_call_evaluated] and
      [destruct_nif_call_res], the blocking call from a native thread into
      the evaluator process.

    and of the code around them: the dtype tables with [string2dtype] and
    [dtype2string], the size check of [from_blob] with [elem_count], the
    copy of [to_blob], the NIF bodies that build or read an array, and
    [nif_call_onload].

    Definitions come first (modules [ErlNif], [Emlx], [NifCall], [Mlx],
    [Nifs], [Bridge]); the properties follow. *)

From Stdlib Require Import ZArith List String Bool Lia.
Import ListNotations.

Local Open Scope Z_scope.

(* ================================================================== *)
(** * The part of erl_nif.h the code relies on *)
(* ================================================================== *)

Module ErlNif.

(** Environments, raw pointers and resource types are identified by
    numbers and names; none of the code under study looks inside them. *)
Definition ErlNifEnv := nat.
Definition pointer := nat.
Definition ErlNifResourceType := string.

(** What a term denotes, independently of the environment it lives in. *)
#[warnings="-register-all"] Inductive term_data : Type :=
| Atom (name : string)
| Integer (z : Z)
| Chars (s : string)
| Tuple (elements : list term_data)
| ResourceRef (type : ErlNifResourceType) (obj : pointer)
| BadArg
| ZeroWord.

(** A term is valid in exactly one environment. *)
Record ERL_NIF_TERM := mkTerm { term_env : ErlNifEnv; term_of : term_data }.

Definition enif_make_atom (env : ErlNifEnv) (name : string) : ERL_NIF_TERM :=
  mkTerm env (Atom name).

Definition enif_make_badarg (env : ErlNifEnv) : ERL_NIF_TERM :=
  mkTerm env BadArg.

(** [enif_make_resource]: the term carries the type the object was
    allocated with (in C it is read from the object's header). *)
Definition enif_make_resource (env : ErlNifEnv) (type : ErlNifResourceType)
           (obj : pointer) : ERL_NIF_TERM :=
  mkTerm env (ResourceRef type obj).

Definition enif_make_tuple3 (env : ErlNifEnv) (a b c : ERL_NIF_TERM) : ERL_NIF_TERM :=
  mkTerm env (Tuple [term_of a; term_of b; term_of c]).

(** [enif_make_copy]: the same value, now owned by [dst_env]. *)
Definition enif_make_copy (dst_env : ErlNifEnv) (src_term : ERL_NIF_TERM) : ERL_NIF_TERM :=
  mkTerm dst_env (term_of src_term).

(** [enif_get_resource]: succeeds on a resource term of the requested type
    and yields the object's address. *)
Definition enif_get_resource (env : ErlNifEnv) (term : ERL_NIF_TERM)
           (type : ErlNifResourceType) : option pointer :=
  match term_of term with
  | ResourceRef type' obj => if String.eqb type' type then Some obj else None
  | _ => None
  end.

(** Erlang equality of terms: the environments do not matter. *)
Definition same_value (a b : ERL_NIF_TERM) : Prop := term_of a = term_of b.

End ErlNif.

(* ================================================================== *)
(** * emlx_nif.cpp: array resources and the scoped reference ArrayP *)
(* ================================================================== *)

Module Emlx.
Import ErlNif.

(** [std::atomic<int>] arithmetic wraps around in two's complement. *)
Definition INT_MIN : Z := - 2 ^ 31.
Definition INT_MAX : Z := 2 ^ 31 - 1.
Definition wrap_int (z : Z) : Z := (z + 2 ^ 31) mod 2 ^ 32 - 2 ^ 31.

(** The MLX array is opaque. *)
Inductive array : Type := MlxArray (id : nat).

(** One resource block, as every allocation site lays it out:
    the array, then the counter, then the flag.  [destructor_runs]
    counts the calls of [~array()] on the object since it was placed. *)
Record array_resource := mkResource {
  object : array;
  destructor_runs : nat;
  refcount : Z;
  deleted : bool
}.

Definition memory := pointer -> array_resource.

Definition store (m : memory) (p : pointer) (r : array_resource) : memory :=
  fun q => if Nat.eqb q p then r else m q.

#[global] Arguments store : simpl never.

(** The global resource type, opened under this name by
    [open_resource_type]. *)
Definition ARRAY_TYPE : ErlNifResourceType := "MLXArray"%string.

(** Modelled from the spec: [nx::nif::error] and [nx::nif::ok] live in
    nx_nif_utils.hpp, which is not among the sources.  An error is a term
    that carries its message; the spec's [Invalid] and [Deallocated] are the
    two messages [ArrayP] produces. *)
Definition nx_nif_error (env : ErlNifEnv) (msg : string) : ERL_NIF_TERM :=
  mkTerm env (Tuple [Atom "error"; Chars msg]).

Definition nx_nif_ok (env : ErlNifEnv) (t : ERL_NIF_TERM) : ERL_NIF_TERM :=
  mkTerm env (Tuple [Atom "ok"; term_of t]).

Definition Invalid (env : ErlNifEnv) : ERL_NIF_TERM :=
  nx_nif_error env "Unable to get array param in NIF".

Definition Deallocated (env : ErlNifEnv) : ERL_NIF_TERM :=
  nx_nif_error env "Array has been deallocated".

(** ** Atomic operations on a block *)

Definition set_refcount (r : array_resource) (c : Z) : array_resource :=
  mkResource (object r) (destructor_runs r) c (deleted r).

(** [refcount->load()] *)
Definition load (r : array_resource) : Z := refcount r.

(** [refcount->fetch_sub(n)]: the value held before, and the block after. *)
Definition fetch_sub (r : array_resource) (n : Z) : Z * array_resource :=
  (refcount r, set_refcount r (wrap_int (refcount r - n))).

(** The pre-increment and pre-decrement of the counter, [++] and [--]. *)
Definition pre_increment (r : array_resource) : array_resource :=
  set_refcount r (wrap_int (refcount r + 1)).

Definition pre_decrement (r : array_resource) : array_resource :=
  set_refcount r (wrap_int (refcount r - 1)).

(** [atomic_flag_test_and_set(deleted)] *)
Definition atomic_flag_test_and_set (r : array_resource) : bool * array_resource :=
  (deleted r, mkResource (object r) (destructor_runs r) (refcount r) true).

(** [ptr->~array()] *)
Definition destroy_array (r : array_resource) : array_resource :=
  mkResource (object r) (S (destructor_runs r)) (refcount r) (deleted r).

(** ** create_array_resource

    [alloc] is what [enif_alloc_resource] returns: [None] for NULL. *)
Definition create_array_resource (env : ErlNifEnv) (alloc : option pointer)
           (a : array) (m : memory) : ERL_NIF_TERM * memory :=
  match alloc with
  | None => (enif_make_badarg env, m)
  | Some arrayPtr =>
      (enif_make_resource env ARRAY_TYPE arrayPtr,
       store m arrayPtr (mkResource a 0%nat 1 false))
  end.

(** ** class ArrayP

    The members [refcount] and [deleted] are the two addresses behind
    [ptr]; they are reached through the block [m p]. *)
Record ArrayP := mkArrayP {
  ptr : option pointer;
  err : option ERL_NIF_TERM
}.

Definition is_valid (a : ArrayP) : bool :=
  match ptr a with Some _ => true | None => false end.

Definition data (a : ArrayP) : option pointer := ptr a.

Definition error (a : ArrayP) : option ERL_NIF_TERM := err a.

(** [ArrayP::ArrayP(env, arg)] *)
Definition ArrayP_ctor (env : ErlNifEnv) (arg : ERL_NIF_TERM) (m : memory)
  : ArrayP * memory :=
  match enif_get_resource env arg ARRAY_TYPE with
  | None => (mkArrayP None (Some (Invalid env)), m)
  | Some p =>
      if load (m p) =? 0
      then (mkArrayP None (Some (Deallocated env)), m)
      else (mkArrayP (Some p) None, store m p (pre_increment (m p)))
  end.

(** [ArrayP::~ArrayP()] *)
Definition ArrayP_dtor (a : ArrayP) (m : memory) : memory :=
  match ptr a with
  | None => m
  | Some p =>
      let (before, r) := fetch_sub (m p) 1 in
      store m p (if before =? 0 then destroy_array r else r)
  end.

(** [ArrayP::deallocate()] *)
Definition deallocate (a : ArrayP) (m : memory) : bool * memory :=
  match ptr a with
  | None => (false, m)
  | Some p =>
      let (was_set, r) := atomic_flag_test_and_set (m p) in
      if negb was_set
      then (true, store m p (pre_decrement r))
      else (false, store m p r)
  end.

(** [free_array(env, obj)], the finalizer registered for [ARRAY_TYPE]. *)
Definition free_array (obj : option pointer) (m : memory) : memory :=
  match obj with
  | None => m
  | Some arr => store m arr (destroy_array (m arr))
  end.

(** ** Uses of a handle

    A NIF body that takes the handle with [ARRAY_PARAM]: the reference is
    constructed, the body runs if the reference is valid (otherwise the NIF
    returns the error), and the end of the scope destroys the reference. *)
Definition with_reference {X : Type} (env : ErlNifEnv) (tok : ERL_NIF_TERM)
           (body : ArrayP -> memory -> X * memory) (m : memory)
  : (ERL_NIF_TERM + X) * memory :=
  let (a, m1) := ArrayP_ctor env tok m in
  if is_valid a
  then let (x, m2) := body a m1 in (inr x, ArrayP_dtor a m2)
  else (inl (match error a with Some e => e | None => enif_make_badarg env end),
        ArrayP_dtor a m1).

(** The value of every [ArrayP] that resolved the block at [p]. *)
Definition reference_to (p : pointer) : ArrayP := mkArrayP (Some p) None.

(** The calls on one handle: an acquire/release pair around a body that
    leaves the block alone, or around a call of [deallocate]. *)
Inductive handle_call : Type := Use | Deallocate.

Definition do_call (env : ErlNifEnv) (tok : ERL_NIF_TERM)
           (c : handle_call) (m : memory) : memory :=
  match c with
  | Use => snd (with_reference env tok (fun _ m1 => (tt, m1)) m)
  | Deallocate => snd (with_reference env tok deallocate m)
  end.

Fixpoint do_calls (env : ErlNifEnv) (tok : ERL_NIF_TERM)
         (cs : list handle_call) (m : memory) : memory :=
  match cs with
  | [] => m
  | c :: rest => do_calls env tok rest (do_call env tok c m)
  end.

(** [n] constructions in a row, none of the references destroyed yet. *)
Fixpoint acquire_many (env : ErlNifEnv) (tok : ERL_NIF_TERM) (n : nat)
         (m : memory) : list ArrayP * memory :=
  match n with
  | O => ([], m)
  | S k =>
      let (a, m1) := ArrayP_ctor env tok m in
      let (refs, m2) := acquire_many env tok k m1 in
      (a :: refs, m2)
  end.

(** [n] calls of [deallocate] in a row through the same reference. *)
Fixpoint deallocate_many (a : ArrayP) (n : nat) (m : memory) : list bool * memory :=
  match n with
  | O => ([], m)
  | S k =>
      let (b, m1) := deallocate a m in
      let (bs, m2) := deallocate_many a k m1 in
      (b :: bs, m2)
  end.

(** The two states a block moves through under acquire/release pairs and
    [deallocate] calls: fresh, or deallocated with the counter at zero.
    In both the destructor has not run. *)
Definition fresh_or_deallocated (r : array_resource) : Prop :=
  destructor_runs r = 0%nat /\
  ((refcount r = 1 /\ deleted r = false) \/ (refcount r = 0 /\ deleted r = true)).

End Emlx.

(* ================================================================== *)
(** * nif_call.h: the blocking call into the evaluator *)
(* ================================================================== *)

Module NifCall.
Import ErlNif.

Definition ErlNifMutex := pointer.
Definition ErlNifCond := pointer.

(** [struct CallbackNifRes]; a NULL pointer is [None]. *)
Record CallbackNifRes := mkRes {
  msg_env : option ErlNifEnv;
  mtx : option ErlNifMutex;
  cond : option ErlNifCond;
  return_value : ERL_NIF_TERM;
  return_value_set : bool
}.

(** The statics filled in by [nif_call_onload]. *)
Definition onload_env : ErlNifEnv := 0%nat.
Definition CallbackNifRes_type : ErlNifResourceType := "CallbackNifRes"%string.
Definition kAtomNil : ERL_NIF_TERM := enif_make_atom onload_env "nil".
Definition kAtomENOMEM : ERL_NIF_TERM := enif_make_atom onload_env "enomem".

(** ** Allocation

    What the four allocating calls of [prepare_nif_call] return ([None] for
    NULL), and the record of what was obtained and given back. *)
Record allocator := mkAllocator {
  enif_alloc_resource : option pointer;
  enif_alloc_env : option ErlNifEnv;
  enif_mutex_create : option ErlNifMutex;
  enif_cond_create : option ErlNifCond
}.

Inductive piece : Type := TheResource | TheEnv | TheMutex | TheCond.

Inductive event : Type := Obtained (p : piece) | GivenBack (p : piece).

Definition piece_eqb (a b : piece) : bool :=
  match a, b with
  | TheResource, TheResource | TheEnv, TheEnv
  | TheMutex, TheMutex | TheCond, TheCond => true
  | _, _ => false
  end.

Definition obtained (log : list event) (p : piece) : nat :=
  List.length (filter (fun e => match e with Obtained q => piece_eqb p q | _ => false end) log).

Definition given_back (log : list event) (p : piece) : nat :=
  List.length (filter (fun e => match e with GivenBack q => piece_eqb p q | _ => false end) log).


(** [memset(res, 0, sizeof(CallbackNifRes))] *)
Definition zeroed : CallbackNifRes :=
  mkRes None None None (mkTerm 0%nat ZeroWord) false.

(** [destruct_nif_call_res], the destructor registered for the resource
    type: it gives back whatever pointer is not NULL and clears it. *)
Definition destruct_nif_call_res (res : CallbackNifRes) : CallbackNifRes * list event :=
  let (res1, log1) :=
    match cond res with
    | Some _ => (mkRes (msg_env res) (mtx res) None (return_value res) (return_value_set res),
                 [GivenBack TheCond])
    | None => (res, [])
    end in
  let (res2, log2) :=
    match mtx res1 with
    | Some _ => (mkRes (msg_env res1) None (cond res1) (return_value res1) (return_value_set res1),
                 [GivenBack TheMutex])
    | None => (res1, [])
    end in
  let (res3, log3) :=
    match msg_env res2 with
    | Some _ => (mkRes None (mtx res2) (cond res2) (return_value res2) (return_value_set res2),
                 [GivenBack TheEnv])
    | None => (res2, [])
    end in
  (res3, log1 ++ log2 ++ log3).

(** [enif_release_resource] on a block to which [references] references
    exist.  Only the release of the last one runs the destructor registered
    for the type and frees the block; any other release gives nothing
    back. *)
Definition enif_release_resource (references : nat) (res : CallbackNifRes) : list event :=
  match references with
  | 1%nat => snd (destruct_nif_call_res res) ++ [GivenBack TheResource]
  | _ => []
  end.

(** [prepare_nif_call].  On its failure paths the reference that
    [enif_alloc_resource] returned is the only one. *)
Definition prepare_nif_call (o : allocator) : option CallbackNifRes * list event :=
  match enif_alloc_resource o with
  | None => (None, [])
  | Some _ =>
      let res := zeroed in
      let log := [Obtained TheResource] in
      match enif_alloc_env o with
      | None => (None, log ++ enif_release_resource 1 res)
      | Some e =>
          let res := mkRes (Some e) (mtx res) (cond res) (return_value res) (return_value_set res) in
          let log := log ++ [Obtained TheEnv] in
          match enif_mutex_create o with
          | None => (None, log ++ [GivenBack TheEnv] ++ enif_release_resource 1 res)
          | Some mx =>
              let res := mkRes (msg_env res) (Some mx) (cond res) (return_value res) (return_value_set res) in
              let log := log ++ [Obtained TheMutex] in
              match enif_cond_create o with
              | None =>
                  (None, log ++ [GivenBack TheEnv; GivenBack TheMutex] ++ enif_release_resource 1 res)
              | Some c =>
                  (Some (mkRes (msg_env res) (mtx res) (Some c) kAtomNil false),
                   log ++ [Obtained TheCond])
              end
          end
      end
  end.

(** ** The two threads of one call

    [make_nif_call] runs on the native thread, [nif_call_evaluated] on a
    scheduler thread of the evaluator process.  Each constructor names the
    statement the thread executes next. *)
Inductive caller_pc : Type :=
| AtSend                       (* lines 87-92 *)
| AtLock                       (* line 94 *)
| AtTest                       (* line 95, holding the mutex *)
| AtWait                       (* line 96, about to enter enif_cond_wait *)
| Sleeping                     (* inside enif_cond_wait, mutex given up *)
| Signalled                    (* woken inside enif_cond_wait, taking the mutex again *)
| AtUnlock                     (* line 98 *)
| AtCopy                       (* lines 100-101 *)
| Returned (value : ERL_NIF_TERM).   (* line 103 *)

Inductive evaluator_pc : Type :=
| Idle                         (* outside nif_call_evaluated *)
| AtStore (argv1 : ERL_NIF_TERM)   (* line 110 *)
| AtSetFlag                    (* line 111 *)
| AtLateStore (argv1 : ERL_NIF_TERM)   (* line 111 has taken effect, line 110 not yet *)
| AtSignal.                    (* line 112 *)

(** The references to the context that the statements of [make_nif_call]
    have made and not given up: the one of [enif_alloc_resource]; from the
    send on, also the one of the callback term of line 87 and the one of
    its copy in the message of line 88; after the release of line 101,
    these two only. *)
Definition references (pc : caller_pc) : nat :=
  match pc with
  | AtSend => 1%nat
  | Returned _ => 2%nat
  | _ => 3%nat
  end.

(** The arguments of [make_nif_call]. *)
Record call := mkCall {
  caller_env : ErlNifEnv;
  evaluator_pid : nat;
  fun_ : ERL_NIF_TERM;
  args : ERL_NIF_TERM
}.

Record system := mkSystem {
  res_at : pointer;                 (* the address of the context *)
  res : CallbackNifRes;             (* its contents *)
  mutex_locked : bool;
  signals : nat;                    (* calls of enif_cond_signal so far *)
  mailbox : list ERL_NIF_TERM;      (* messages sent to the evaluator *)
  caller : caller_pc;
  evaluator : evaluator_pc;
  pending : list ERL_NIF_TERM;      (* argv[1] of the completions still to come *)
  reference_released : bool         (* line 101 has run *)
}.

Definition with_caller (s : system) (pc : caller_pc) : system :=
  mkSystem (res_at s) (res s) (mutex_locked s) (signals s) (mailbox s) pc
           (evaluator s) (pending s) (reference_released s).

Definition with_mutex (s : system) (locked : bool) : system :=
  mkSystem (res_at s) (res s) locked (signals s) (mailbox s) (caller s)
           (evaluator s) (pending s) (reference_released s).

Definition with_res (s : system) (r : CallbackNifRes) : system :=
  mkSystem (res_at s) r (mutex_locked s) (signals s) (mailbox s) (caller s)
           (evaluator s) (pending s) (reference_released s).

Definition with_evaluator (s : system) (pc : evaluator_pc) : system :=
  mkSystem (res_at s) (res s) (mutex_locked s) (signals s) (mailbox s) (caller s)
           pc (pending s) (reference_released s).

(** One statement of [make_nif_call]; [None] when the thread cannot move
    (blocked on the mutex or the condition variable, or finished). *)
Definition caller_step (c : call) (s : system) : option system :=
  match caller s with
  | AtSend =>
      match msg_env (res s) with
      | None => None
      | Some e =>
          let callback_term := enif_make_resource (caller_env c) CallbackNifRes_type (res_at s) in
          let msg := enif_make_copy e (enif_make_tuple3 (caller_env c) (fun_ c) (args c) callback_term) in
          Some (mkSystem (res_at s) (res s) (mutex_locked s) (signals s) (mailbox s ++ [msg])
                         AtLock (evaluator s) (pending s) (reference_released s))
      end
  | AtLock =>
      if mutex_locked s then None
      else Some (with_caller (with_mutex s true) AtTest)
  | AtTest =>
      if return_value_set (res s)
      then Some (with_caller s AtUnlock)
      else Some (with_caller s AtWait)
  | AtWait => Some (with_caller (with_mutex s false) Sleeping)
  | Sleeping => None
  | Signalled =>
      if mutex_locked s then None
      else Some (with_caller (with_mutex s true) AtTest)
  | AtUnlock => Some (with_caller (with_mutex s false) AtCopy)
  | AtCopy =>
      let return_value := enif_make_copy (caller_env c) (return_value (res s)) in
      Some (mkSystem (res_at s) (res s) (mutex_locked s) (signals s) (mailbox s)
                     (Returned return_value) (evaluator s) (pending s) true)
  | Returned _ => None
  end.

(** The three statements of [nif_call_evaluated] after its argument check. *)
Definition store_return_value (argv1 : ERL_NIF_TERM) (s : system) : option system :=
  match msg_env (res s) with
  | None => None
  | Some e =>
      Some (with_res s (mkRes (msg_env (res s)) (mtx (res s)) (cond (res s))
                              (enif_make_copy e argv1) (return_value_set (res s))))
  end.

Definition set_return_value_set (s : system) : system :=
  with_res s (mkRes (msg_env (res s)) (mtx (res s)) (cond (res s))
                    (return_value (res s)) true).

(** [enif_cond_signal]: wakes the thread waiting on the condition variable,
    if there is one; otherwise the signal leaves no trace but its count. *)
Definition enif_cond_signal (s : system) : system :=
  mkSystem (res_at s) (res s) (mutex_locked s) (S (signals s)) (mailbox s)
           (match caller s with Sleeping => Signalled | pc => pc end)
           (evaluator s) (pending s) (reference_released s).

(** One statement of the evaluator's side, in the order of the program
    text.  It can enter [nif_call_evaluated] only once the message with the
    callback term has been sent. *)
Definition evaluator_step (s : system) : option system :=
  match evaluator s with
  | Idle =>
      match pending s, mailbox s with
      | v :: rest, _ :: _ =>
          Some (mkSystem (res_at s) (res s) (mutex_locked s) (signals s) (mailbox s)
                         (caller s) (AtStore v) rest (reference_released s))
      | _, _ => None
      end
  | AtStore v =>
      match store_return_value v s with
      | Some s1 => Some (with_evaluator s1 AtSetFlag)
      | None => None
      end
  | AtSetFlag => Some (with_evaluator (set_return_value_set s) AtSignal)
  | AtLateStore v =>
      match store_return_value v s with
      | Some s1 => Some (with_evaluator s1 AtSignal)
      | None => None
      end
  | AtSignal => Some (with_evaluator (enif_cond_signal s) Idle)
  end.

(** [return_value] and [return_value_set] are plain fields, and
    [nif_call_evaluated] writes them without the mutex: nothing orders the
    two stores for the thread that reads them, and the store of line 111
    may take effect before that of line 110. *)
Definition flag_store_first (s : system) : option system :=
  match evaluator s with
  | AtStore v => Some (with_evaluator (set_return_value_set s) (AtLateStore v))
  | _ => None
  end.

(** [nif_call_evaluated(env, argc, argv)] as one call. *)
Definition nif_call_evaluated (env : ErlNifEnv) (argv0 argv1 : ERL_NIF_TERM)
           (s : system) : option (ERL_NIF_TERM * system) :=
  match enif_get_resource env argv0 CallbackNifRes_type with
  | None => Some (enif_make_badarg env, s)
  | Some _ =>
      match store_return_value argv1 s with
      | None => None
      | Some s1 => Some (enif_make_atom env "ok", enif_cond_signal (set_return_value_set s1))
      end
  end.

(** Who moves next: one of the two threads; the condition variable,
    which may wake its waiter although nobody signalled ([enif_cond_wait]
    is allowed to return in this way but does not promise to; the loop of
    line 95 is there to test the flag again when it does); or the memory,
    which lets the flag store of the evaluator overtake its value store. *)
Inductive actor : Type := Caller | Evaluator | Wakeup | Reorder.

Definition actor_eq_dec (a b : actor) : {a = b} + {a <> b}.
Proof. decide equality. Defined.

Definition spurious_wakeup (s : system) : option system :=
  match caller s with
  | Sleeping => Some (with_caller s Signalled)
  | _ => None
  end.

Definition step (c : call) (a : actor) (s : system) : option system :=
  match a with
  | Caller => caller_step c s
  | Evaluator => evaluator_step s
  | Wakeup => spurious_wakeup s
  | Reorder => flag_store_first s
  end.

(** A schedule names who moves at each instant; it is admissible when
    everyone it names can move. *)
Fixpoint run (c : call) (sched : list actor) (s : system) : option system :=
  match sched with
  | [] => Some s
  | a :: rest =>
      match step c a s with
      | Some s1 => run c rest s1
      | None => None
      end
  end.

(** Neither thread can move: whatever happens next is not the program's
    doing. *)
Definition quiescent (c : call) (s : system) : Prop :=
  step c Caller s = None /\ step c Evaluator s = None.

(** A schedule without wake-ups that no signal caused. *)
Definition signals_only (sched : list actor) : Prop := ~ In Wakeup sched.

(** A schedule under which the stores of the evaluator take effect in the
    order of the program text. *)
Definition program_order (sched : list actor) : Prop := ~ In Reorder sched.

(** The state in which [make_nif_call] leaves [prepare_nif_call]. *)
Definition started (p : pointer) (r : CallbackNifRes) (completions : list ERL_NIF_TERM)
  : system :=
  mkSystem p r false 0%nat [] AtSend Idle completions false.

(** [make_nif_call] under a schedule: the value it returns, if it has
    returned by the end of the schedule. *)
Definition make_nif_call (c : call) (o : allocator)
           (completions : list ERL_NIF_TERM) (sched : list actor)
  : option ERL_NIF_TERM :=
  match prepare_nif_call o, enif_alloc_resource o with
  | (Some r, _), Some p =>
      match run c sched (started p r completions) with
      | Some s => match caller s with Returned v => Some v | _ => None end
      | None => None
      end
  | _, _ => Some kAtomENOMEM
  end.

(** What holds in every state of a call that is completed once, with [v];
    [po] tells whether the stores of the evaluator take effect in program
    order.  The context keeps its environment [e]; the slot holds the
    initial nil until the copy of [v] is stored; in program order the flag
    is set only after that store, otherwise it may be set while the slot
    still holds nil; the caller is past its loop only when the flag is set,
    and what it returns is the copy of [v] or, out of program order, of
    nil; the message is in the mailbox once the caller is past the send;
    and the mutex is held exactly between lock and wait or unlock. *)
Definition consistent (po : bool) (c : call) (e : ErlNifEnv) (v : ERL_NIF_TERM)
           (s : system) : Prop :=
  msg_env (res s) = Some e /\
  match evaluator s, pending s with
  | Idle, [w] | AtStore w, [] =>
      w = v /\ return_value_set (res s) = false /\ return_value (res s) = kAtomNil
  | AtSetFlag, [] =>
      return_value_set (res s) = false /\ return_value (res s) = enif_make_copy e v
  | AtLateStore w, [] =>
      po = false /\ w = v /\
      return_value_set (res s) = true /\ return_value (res s) = kAtomNil
  | AtSignal, [] | Idle, [] =>
      return_value_set (res s) = true /\ return_value (res s) = enif_make_copy e v
  | _, _ => False
  end /\
  match caller s with
  | AtUnlock | AtCopy => return_value_set (res s) = true
  | Returned x =>
      return_value_set (res s) = true /\
      (x = enif_make_copy (caller_env c) (enif_make_copy e v) \/
       (po = false /\ x = enif_make_copy (caller_env c) kAtomNil))
  | _ => True
  end /\
  (caller s = AtSend \/ mailbox s <> []) /\
  mutex_locked s = match caller s with
                   | AtTest | AtWait | AtUnlock => true
                   | _ => false
                   end.

End NifCall.

(* ================================================================== *)
(** * emlx_nif.cpp: the dtype tables, the blob checks, the NIF bodies *)
(* ================================================================== *)

Module Mlx.
Import ErlNif Emlx.

(** A call into C++ that may throw: it returns, throws a
    [std::exception] with its [what()], or throws something else. *)
Inductive outcome (A : Type) : Type :=
| Returns (a : A)
| Throws (what : string)
| ThrowsUnknown.

Arguments Returns {A} a.
Arguments Throws {A} what.
Arguments ThrowsUnknown {A}.

(** [mlx::core::Dtype]: the thirteen constants the tables name, and
    whatever else the library may define. *)
Inductive Dtype : Type :=
| bool_ | uint8 | uint16 | uint32 | uint64
| int8 | int16 | int32 | int64
| float16 | float32 | bfloat16 | complex64
| other_dtype (val : nat).

Definition Dtype_eq_dec (a b : Dtype) : {a = b} + {a <> b}.
Proof. decide equality. apply Nat.eq_dec. Defined.

(** A [std::map] with string keys, as the list of its entries in key
    order, which is the order a range-for visits them in. *)
Definition string_map (V : Type) : Type := list (string * V).

(** [map.find(key)] *)
Fixpoint find {V : Type} (m : string_map V) (key : string) : option V :=
  match m with
  | [] => None
  | (k, v) :: rest => if String.eqb k key then Some v else find rest key
  end.

(** The keys are strictly increasing, as in every [std::map]. *)
Fixpoint increasing (keys : list string) : bool :=
  match keys with
  | a :: (b :: _) as rest => (String.ltb a b && increasing rest)%bool
  | _ => true
  end.

(** [dtypes] *)
Definition dtypes : string_map Dtype :=
  [ ("bfloat16", bfloat16); ("bool", bool_); ("complex64", complex64);
    ("float16", float16); ("float32", float32);
    ("int16", int16); ("int32", int32); ("int64", int64); ("int8", int8);
    ("uint16", uint16); ("uint32", uint32); ("uint64", uint64);
    ("uint8", uint8) ]%string.

(** [dtype_sizes]; [size] is [Dtype::size()], which the library defines. *)
Definition dtype_sizes (size : Dtype -> Z) : string_map Z :=
  [ ("bfloat16", size bfloat16); ("bool", size bool_); ("complex64", size complex64);
    ("float16", size float16); ("float32", size float32);
    ("int16", size int16); ("int32", size int32); ("int64", size int64);
    ("int8", size int8);
    ("uint16", size uint16); ("uint32", size uint32); ("uint64", size uint64);
    ("uint8", size uint8) ]%string.

(** [string2dtype] *)
Definition string2dtype (atom : string) : outcome Dtype :=
  match find dtypes atom with
  | Some d => Returns d
  | None => Throws ("Unknown dtype: " ++ atom)
  end.

(** [dtype2string]: the key of the first entry that holds [dtype];
    [None] is the null pointer. *)
Fixpoint first_key_of (m : string_map Dtype) (dtype : Dtype) : option string :=
  match m with
  | [] => None
  | (k, v) :: rest =>
      if Dtype_eq_dec v dtype then Some k else first_key_of rest dtype
  end.

Definition dtype2string (dtype : Dtype) : option string := first_key_of dtypes dtype.

(** ** elem_count and the size check of from_blob

    [std::accumulate] starts from the [int] 1, so the product is formed
    in [int]; an overflow there is undefined and shows as [None].  The
    result is then converted to [uint64_t]. *)
Definition int_mul (a b : Z) : option Z :=
  let r := a * b in
  if ((INT_MIN <=? r) && (r <=? INT_MAX))%bool then Some r else None.

Fixpoint accumulate (shape : list Z) (acc : Z) : option Z :=
  match shape with
  | [] => Some acc
  | d :: rest =>
      match int_mul acc d with
      | Some acc' => accumulate rest acc'
      | None => None
      end
  end.

Definition to_uint64 (z : Z) : Z := z mod 2 ^ 64.

(** The number of elements of a shape, as a mathematical integer. *)
Definition product (shape : list Z) : Z := fold_right Z.mul 1 shape.

Definition elem_count (shape : list Z) : option Z :=
  match accumulate shape 1 with
  | Some product => Some (to_uint64 product)
  | None => None
  end.

(** The test of line 479, [blob.size / dtype_sizes[type_atom] <
    elem_count(shape)], on unsigned 64-bit operands.  [None] is undefined
    behaviour: a division by zero, or the overflow above. *)
Definition blob_too_small (blob_size item_size : Z) (shape : list Z) : option bool :=
  if item_size =? 0 then None
  else match elem_count shape with
       | Some n => Some (blob_size / item_size <? n)
       | None => None
       end.

(** ** The copy of to_blob (lines 441 to 460)

    [limit] is present when the NIF was called with two arguments.  The
    product of the [int64_t] limit and the [size_t] item size is formed in
    [size_t]. *)
Definition to_blob_byte_size (nbytes item_size : Z) (limit : option Z) : Z :=
  match limit with
  | None => nbytes
  | Some l => to_uint64 (l * item_size)
  end.

(** [std::memcpy(dst, src, n)] out of a buffer of known contents: reading
    past its end is undefined. *)
Definition memcpy_from (src : list Byte.byte) (n : Z) : option (list Byte.byte) :=
  if n <=? Z.of_nat (List.length src)
  then Some (firstn (Z.to_nat n) src)
  else None.

(** The binary [to_blob] builds from the evaluated array's buffer. *)
Definition to_blob_bytes (data : list Byte.byte) (item_size : Z) (limit : option Z)
  : option (list Byte.byte) :=
  memcpy_from data (to_blob_byte_size (Z.of_nat (List.length data)) item_size limit).

End Mlx.

Module Nifs.
Import ErlNif Emlx Mlx.

(** ** Arguments

    The arguments of the NIFs other than the array handle: lists, integers,
    floats and atoms.  [Plain] holds a term of [ErlNif]; a C [double] is kept
    as its bits. *)
Inductive double : Type := Double (bits : Z).

Inductive arg : Type :=
| Plain (t : term_data)
| Float (d : double)
| Nil
| Cons (head tail : arg).

(** [enif_get_list_length]: defined on proper lists only. *)
Fixpoint enif_get_list_length (a : arg) : option nat :=
  match a with
  | Nil => Some O
  | Cons _ tail =>
      match enif_get_list_length tail with
      | Some n => Some (S n)
      | None => None
      end
  | _ => None
  end.

(** [enif_get_list_cell] *)
Definition enif_get_list_cell (a : arg) : option (arg * arg) :=
  match a with
  | Cons head tail => Some (head, tail)
  | _ => None
  end.

(** [enif_get_int]: an integer that fits a C [int]. *)
Definition enif_get_int (a : arg) : option Z :=
  match a with
  | Plain (Integer z) =>
      if ((INT_MIN <=? z) && (z <=? INT_MAX))%bool then Some z else None
  | _ => None
  end.

(** The integers a C [int] holds. *)
Definition fits_int (z : Z) : Prop := INT_MIN <= z <= INT_MAX.

(** [enif_get_double]: a float; an integer is not one. *)
Definition enif_get_double (a : arg) : option double :=
  match a with
  | Float d => Some d
  | _ => None
  end.

(** [enif_get_atom(env, term, buf, size, ERL_NIF_LATIN1)]: the name must fit
    the buffer together with its terminating zero. *)
Definition enif_get_atom (a : arg) (size : nat) : option string :=
  match a with
  | Plain (Atom name) => if Nat.ltb (String.length name) size then Some name else None
  | _ => None
  end.

(** The loop shared by [make_zeros], [make_ones] and [sum]: [length]
    cells are taken off the list, each of which must hold an [int]. *)
Fixpoint read_ints (length : nat) (tail : arg) (read : list Z) : option (list Z) :=
  match length with
  | O => Some read
  | S k =>
      match enif_get_list_cell tail with
      | None => None
      | Some (head, tail') =>
          match enif_get_int head with
          | None => None
          | Some dim => read_ints k tail' (read ++ [dim])
          end
      end
  end.

(** [enif_get_list_length] followed by the loop. *)
Definition get_int_list (a : arg) : option (list Z) :=
  match enif_get_list_length a with
  | None => None
  | Some length => read_ints length a []
  end.

(** The list term that holds the given integers. *)
Fixpoint int_list (l : list Z) : arg :=
  match l with
  | [] => Nil
  | z :: rest => Cons (Plain (Integer z)) (int_list rest)
  end.

(** ** The array library

    What the NIFs ask of MLX: constructors and operations, which may throw,
    and accessors. *)
Record library := mkLibrary {
  zeros : list Z -> Dtype -> outcome array;
  ones : list Z -> Dtype -> outcome array;
  mlx_sum : array -> list Z -> bool -> outcome array;
  astype : array -> Dtype -> outcome array;
  make_scalar_tensor : double -> Dtype -> outcome array;
  array_from_data : list Byte.byte -> list Z -> Dtype -> outcome array;
  dtype : array -> Dtype;
  array_shape : array -> list Z;
  size : Dtype -> Z
}.

(** ** Results *)

Definition error_atom (env : ErlNifEnv) (reason : string) : ERL_NIF_TERM :=
  mkTerm env (Tuple [Atom "error"; Atom reason]).

(** [enif_make_tuple2(env, error, enif_make_string(env, what, ...))] *)
Definition error_string (env : ErlNifEnv) (what : string) : ERL_NIF_TERM :=
  mkTerm env (Tuple [Atom "error"; Chars what]).

(** The allocation every array-building NIF spells out (lines 220 to 242
    and its four copies): the block is obtained, the array moved into it,
    the counter set to 1 and the flag cleared; the term takes over the
    reference. *)
Definition publish (env : ErlNifEnv) (alloc : option pointer) (result : array)
           (m : memory) : ERL_NIF_TERM * memory :=
  match alloc with
  | None => (error_atom env "resource_allocation_failed", m)
  | Some resource =>
      (mkTerm env (Tuple [Atom "ok"; term_of (enif_make_resource env ARRAY_TYPE resource)]),
       store m resource (mkResource result 0%nat 1 false))
  end.

(** The resource term inside an [{ok, Term}] result. *)
Definition token_of (t : ERL_NIF_TERM) : option ERL_NIF_TERM :=
  match term_of t with
  | Tuple [Atom "ok"; ResourceRef ty obj] => Some (mkTerm (term_env t) (ResourceRef ty obj))
  | _ => None
  end.

(** What an array-building NIF that returned [t] has done to the memory:
    nothing unless [t] is [{ok, Term}]; then the block the allocator gave
    holds an array with counter 1 and a clear flag, [Term] resolves to that
    block from every environment, and an [ArrayP] made from it is valid. *)
Definition published (t : ERL_NIF_TERM) (alloc : option pointer) (m m' : memory) : Prop :=
  match token_of t with
  | None => m' = m
  | Some tok =>
      exists r a,
        alloc = Some r /\
        (forall env', enif_get_resource env' tok ARRAY_TYPE = Some r) /\
        m' = store m r (mkResource a 0%nat 1 false) /\
        (forall env', ArrayP_ctor env' tok m'
                      = (reference_to r, store m' r (mkResource a 0%nat 2 false)))
  end.

(** The two [try] blocks: the one of [make_zeros], [make_ones] and [sum]
    catches everything; the one of [to_type] and [scalar_tensor] catches
    [std::exception] only, and anything else leaves the NIF ([None]). *)
Definition publish_or_catch_all (env : ErlNifEnv) (alloc : option pointer)
           (result : outcome array) (m : memory) : ERL_NIF_TERM * memory :=
  match result with
  | Returns a => publish env alloc a m
  | Throws what => (error_string env what, m)
  | ThrowsUnknown => (error_atom env "unknown_error", m)
  end.

Definition publish_or_catch_std (env : ErlNifEnv) (alloc : option pointer)
           (result : outcome array) (m : memory) : option ERL_NIF_TERM * memory :=
  match result with
  | Returns a => let (t, m') := publish env alloc a m in (Some t, m')
  | Throws what => (Some (error_string env what), m)
  | ThrowsUnknown => (None, m)
  end.

(** ** The NIFs *)

(** [make_zeros] and [make_ones] differ in the library call only. *)
Definition make_filled (build : list Z -> Dtype -> outcome array)
           (env : ErlNifEnv) (argv : list arg) (alloc : option pointer) (m : memory)
  : ERL_NIF_TERM * memory :=
  match argv with
  | [argv0] =>
      match get_int_list argv0 with
      | None => (enif_make_badarg env, m)
      | Some shape => publish_or_catch_all env alloc (build shape float32) m
      end
  | _ => (enif_make_badarg env, m)
  end.

Definition make_zeros (lib : library) := make_filled (zeros lib).
Definition make_ones (lib : library) := make_filled (ones lib).

(** The array a valid reference points at. *)
Definition deref (t : ArrayP) (m : memory) : option array :=
  match data t with
  | Some p => Some (object (m p))
  | None => None
  end.

(** [scalar_type] *)
Definition scalar_type (lib : library) (env : ErlNifEnv) (argv0 : ERL_NIF_TERM)
           (m : memory) : (ERL_NIF_TERM + ERL_NIF_TERM) * memory :=
  with_reference env argv0
    (fun t m1 =>
       match deref t m1 with
       | None => (enif_make_badarg env, m1)
       | Some a =>
           match dtype2string (dtype lib a) with
           | Some type_name => (nx_nif_ok env (enif_make_atom env type_name), m1)
           | None => (nx_nif_error env "Could not determine array type.", m1)
           end
       end) m.

(** [shape] *)
Definition shape (lib : library) (env : ErlNifEnv) (argv0 : ERL_NIF_TERM)
           (m : memory) : (ERL_NIF_TERM + ERL_NIF_TERM) * memory :=
  with_reference env argv0
    (fun t m1 =>
       match deref t m1 with
       | None => (enif_make_badarg env, m1)
       | Some a =>
           (nx_nif_ok env (mkTerm env (Tuple (map Integer (array_shape lib a)))), m1)
       end) m.

(** [sum] *)
Definition sum (lib : library) (env : ErlNifEnv) (argv0 : ERL_NIF_TERM)
           (argv1 argv2 : arg) (alloc : option pointer) (m : memory)
  : (ERL_NIF_TERM + ERL_NIF_TERM) * memory :=
  with_reference env argv0
    (fun t m1 =>
       match deref t m1 with
       | None => (enif_make_badarg env, m1)
       | Some a =>
           match get_int_list argv1 with
           | None => (enif_make_badarg env, m1)
           | Some axes =>
               match enif_get_int argv2 with
               | None => (enif_make_badarg env, m1)
               | Some keep_dims =>
                   publish_or_catch_all env alloc
                     (mlx_sum lib a axes (negb (keep_dims =? 0))) m1
               end
           end
       end) m.

(** [to_type] *)
Definition to_type (lib : library) (env : ErlNifEnv) (argv0 : ERL_NIF_TERM)
           (argv1 : arg) (alloc : option pointer) (m : memory)
  : (ERL_NIF_TERM + option ERL_NIF_TERM) * memory :=
  with_reference env argv0
    (fun t m1 =>
       match deref t m1 with
       | None => (Some (enif_make_badarg env), m1)
       | Some a =>
           match enif_get_atom argv1 32 with
           | None => (Some (enif_make_badarg env), m1)
           | Some type_str =>
               match string2dtype type_str with
               | Returns new_dtype =>
                   publish_or_catch_std env alloc (astype lib a new_dtype) m1
               | Throws what => (Some (error_string env what), m1)
               | ThrowsUnknown => (None, m1)
               end
           end
       end) m.

(** [scalar_tensor] *)
Definition scalar_tensor (lib : library) (env : ErlNifEnv) (argv : list arg)
           (alloc : option pointer) (m : memory) : option ERL_NIF_TERM * memory :=
  match argv with
  | [argv0; argv1] =>
      match enif_get_double argv0 with
      | None => (Some (enif_make_badarg env), m)
      | Some value =>
          match enif_get_atom argv1 32 with
          | None => (Some (enif_make_badarg env), m)
          | Some type_str =>
              match string2dtype type_str with
              | Returns d =>
                  publish_or_catch_std env alloc (make_scalar_tensor lib value d) m
              | Throws what => (Some (error_string env what), m)
              | ThrowsUnknown => (None, m)
              end
          end
      end
  | _ => (Some (enif_make_badarg env), m)
  end.

(** [from_blob] once [BINARY_PARAM], [SHAPE_PARAM] and [TYPE_PARAM], three
    macros of nx_nif_utils.hpp, have produced the blob, the shape, the type
    atom and the type.  [dtype_sizes[type_atom]] yields zero for a key the
    table lacks.  [None] is undefined behaviour. *)
Definition from_blob (lib : library) (env : ErlNifEnv) (blob : list Byte.byte)
           (shape : list Z) (type_atom : string) (type : Dtype)
           (alloc : option pointer) (m : memory) : option (ERL_NIF_TERM * memory) :=
  let item_size :=
    match find (dtype_sizes (size lib)) type_atom with
    | Some s => s
    | None => 0
    end in
  match blob_too_small (Z.of_nat (List.length blob)) item_size shape with
  | None => None
  | Some true =>
      Some (nx_nif_error env "Binary size is too small for the requested shape", m)
  | Some false =>
      match array_from_data lib blob shape type with
      | Returns a =>
          let (t, m') := create_array_resource env alloc a m in
          Some (nx_nif_ok env t, m')
      | Throws what => Some (nx_nif_error env what, m)
      | ThrowsUnknown =>
          Some (nx_nif_error env "Unknown error creating array from binary data", m)
      end
  end.

End Nifs.

Module Bridge.
Import ErlNif NifCall.

(** ** nif_call_onload

    The statics of the bridge and the function-local [loaded]. *)
Record statics := mkStatics {
  loaded : bool;
  type : option ErlNifResourceType;
  atom_nil : option ERL_NIF_TERM;
  atom_enomem : option ERL_NIF_TERM;
  opened : nat                       (* successful enif_open_resource_type calls *)
}.

Definition unloaded : statics := mkStatics false None None None 0%nat.

(** [nif_call_onload(env)]; [open] is what [enif_open_resource_type]
    returns, [None] for NULL.  The result is the [int] the function
    returns. *)
Definition nif_call_onload (env : ErlNifEnv) (open : option ErlNifResourceType)
           (st : statics) : Z * statics :=
  if loaded st then (0, st)
  else match open with
       | None => (-1, st)
       | Some rt =>
           (0, mkStatics true (Some rt)
                         (Some (enif_make_atom env "nil"))
                         (Some (enif_make_atom env "enomem"))
                         (S (opened st)))
       end.

(** Several loads in a row, each with its own outcome of
    [enif_open_resource_type]. *)
Fixpoint onloads (env : ErlNifEnv) (opens : list (option ErlNifResourceType))
         (st : statics) : list Z * statics :=
  match opens with
  | [] => ([], st)
  | open :: rest =>
      let (r, st1) := nif_call_onload env open st in
      let (rs, st2) := onloads env rest st1 in
      (r :: rs, st2)
  end.

(** The first resource type a run of loads obtains. *)
Fixpoint first_opened (opens : list (option ErlNifResourceType)) : option ErlNifResourceType :=
  match opens with
  | [] => None
  | Some rt :: _ => Some rt
  | None :: rest => first_opened rest
  end.

(** What the loads of such a run return: -1 up to the first success, 0
    from it on. *)
Fixpoint load_results (opens : list (option ErlNifResourceType)) : list Z :=
  match opens with
  | [] => []
  | Some _ :: rest => 0 :: repeat 0 (List.length rest)
  | None :: rest => -1 :: load_results rest
  end.

(** ** A call completed any number of times

    The message [make_nif_call] sends. *)
Definition request (c : call) (e : ErlNifEnv) (p : pointer) : ERL_NIF_TERM :=
  enif_make_copy e
    (enif_make_tuple3 (caller_env c) (fun_ c) (args c)
       (enif_make_resource (caller_env c) CallbackNifRes_type p)).

(** What holds in every state of a call whose completions are taken from
    [all]; [po] tells whether the stores of the evaluator take effect in
    program order.  The slot holds the initial nil or the copy of a
    completion, and in program order the copy of a completion once the
    flag is set; the caller is past its loop only when the flag is set, and
    what it returns is the copy of a completion or, out of program order,
    of nil; the mailbox is empty before the send and holds the one request
    after it; and the mutex is held exactly between lock and wait or
    unlock. *)
Definition supplied (po : bool) (c : call) (e : ErlNifEnv) (p : pointer)
           (all : list ERL_NIF_TERM) (s : system) : Prop :=
  msg_env (res s) = Some e /\
  res_at s = p /\
  incl (pending s) all /\
  match evaluator s with
  | AtStore w => In w all
  | AtLateStore w => In w all /\ po = false
  | _ => True
  end /\
  (return_value (res s) = kAtomNil \/
   exists v, In v all /\ return_value (res s) = enif_make_copy e v) /\
  (po = true ->
   return_value_set (res s) = true \/ evaluator s = AtSetFlag ->
   exists v, In v all /\ return_value (res s) = enif_make_copy e v) /\
  match caller s with
  | AtUnlock | AtCopy => return_value_set (res s) = true
  | Returned x =>
      (exists v, In v all /\ x = enif_make_copy (caller_env c) v) \/
      (po = false /\ x = enif_make_copy (caller_env c) kAtomNil)
  | _ => True
  end /\
  mailbox s = match caller s with AtSend => [] | _ => [request c e p] end /\
  mutex_locked s = match caller s with
                   | AtTest | AtWait | AtUnlock => true
                   | _ => false
                   end /\
  reference_released s = match caller s with Returned _ => true | _ => false end.

(** The third element of a request, as the evaluator passes it back. *)
Definition callback_of (env : ErlNifEnv) (msg : ERL_NIF_TERM) : option ERL_NIF_TERM :=
  match term_of msg with
  | Tuple [_; _; cb] => Some (mkTerm env cb)
  | _ => None
  end.

End Bridge.

(* ================================================================== *)
(** * Properties of the resource handle *)
(* ================================================================== *)

Import ErlNif Emlx NifCall.

Section Arithmetic.

Lemma two_31 : 2 ^ 31 = 2147483648.
Proof. reflexivity. Qed.

Lemma two_32 : 2 ^ 32 = 4294967296.
Proof. reflexivity. Qed.

Lemma wrap_int_in_range (z : Z) :
  INT_MIN <= z <= INT_MAX -> wrap_int z = z.
Proof.
  unfold wrap_int, INT_MIN, INT_MAX. rewrite two_31, two_32. intros H.
  rewrite Z.mod_small; lia.
Qed.

Lemma wrap_int_bounds (z : Z) : INT_MIN <= wrap_int z <= INT_MAX.
Proof.
  unfold wrap_int, INT_MIN, INT_MAX. rewrite two_31, two_32.
  pose proof (Z.mod_pos_bound (z + 2147483648) 4294967296 ltac:(lia)). lia.
Qed.

(** Wrapping an intermediate result does not change a wrapped sum. *)
Lemma wrap_int_add (z k : Z) : wrap_int (wrap_int z + k) = wrap_int (z + k).
Proof.
  unfold wrap_int. rewrite two_31, two_32. f_equal.
  replace ((z + 2147483648) mod 4294967296 - 2147483648 + k + 2147483648)
    with ((z + 2147483648) mod 4294967296 + k) by lia.
  replace (z + k + 2147483648) with ((z + 2147483648) + k) by lia.
  rewrite Z.add_mod_idemp_l by lia. reflexivity.
Qed.

(** Strictly between two multiples of [2^32] the counter does not read
    zero. *)
Lemma wrap_int_nonzero (z : Z) :
  0 < z < 2 ^ 32 -> wrap_int z <> 0.
Proof.
  unfold wrap_int. rewrite two_31, two_32. intros H E.
  destruct (Z_lt_le_dec z 2147483648) as [L | L].
  - rewrite Z.mod_small in E; lia.
  - replace (z + 2147483648) with ((z - 2147483648) + 1 * 4294967296) in E by lia.
    rewrite Z.mod_add in E by lia. rewrite Z.mod_small in E; lia.
Qed.

Lemma wrap_int_two_32 : wrap_int (2 ^ 32) = 0.
Proof. reflexivity. Qed.

End Arithmetic.

Section Memory.

Lemma store_same (m : memory) (p : pointer) (r : array_resource) :
  store m p r p = r.
Proof. unfold store. now rewrite Nat.eqb_refl. Qed.

Lemma store_other (m : memory) (p q : pointer) (r : array_resource) :
  q <> p -> store m p r q = m q.
Proof.
  intros H. unfold store. destruct (Nat.eqb q p) eqn:E; [|reflexivity].
  apply Nat.eqb_eq in E. contradiction.
Qed.

(** Writing back what a block already holds changes nothing. *)
Lemma store_unchanged (m : memory) (p : pointer) (r : array_resource) :
  r = m p -> forall q, store m p r q = m q.
Proof.
  intros -> q. unfold store. destruct (Nat.eqb q p) eqn:E; [|reflexivity].
  apply Nat.eqb_eq in E. now subst.
Qed.

(** The token made by [create_array_resource] resolves to its block. *)
Lemma created_token_resolves (env env' : ErlNifEnv) (p : pointer) :
  enif_get_resource env' (enif_make_resource env ARRAY_TYPE p) ARRAY_TYPE = Some p.
Proof. reflexivity. Qed.

End Memory.

Ltac handle_simpl :=
  cbn [fst snd ptr err is_valid data error load fetch_sub pre_increment
       pre_decrement atomic_flag_test_and_set destroy_array set_refcount
       refcount deleted destructor_runs object reference_to] in *;
  rewrite ?store_same in *.

Section Acquire.

Variable env : ErlNifEnv.

(** The two errors of [ArrayP] are different terms. *)
Lemma Invalid_not_Deallocated : Invalid env <> Deallocated env.
Proof. discriminate. Qed.

(** The two outcomes of construction from a token that resolves. *)
Lemma ArrayP_ctor_live (t : ERL_NIF_TERM) (q : pointer) (m : memory) :
  enif_get_resource env t ARRAY_TYPE = Some q -> refcount (m q) <> 0 ->
  ArrayP_ctor env t m = (reference_to q, store m q (pre_increment (m q))).
Proof.
  intros Hr Hc. unfold ArrayP_ctor. rewrite Hr. unfold load.
  destruct (refcount (m q) =? 0) eqn:E; [|reflexivity].
  apply Z.eqb_eq in E. contradiction.
Qed.

Lemma ArrayP_ctor_dead (t : ERL_NIF_TERM) (q : pointer) (m : memory) :
  enif_get_resource env t ARRAY_TYPE = Some q -> refcount (m q) = 0 ->
  ArrayP_ctor env t m = (mkArrayP None (Some (Deallocated env)), m).
Proof.
  intros Hr Hc. unfold ArrayP_ctor. rewrite Hr. unfold load. now rewrite Hc.
Qed.

(** C8.  Construction of an [ArrayP] from a token: a token that is not a
    resource of [ARRAY_TYPE] yields the [Invalid] error; a block whose
    counter reads zero yields the [Deallocated] error; in both cases the
    reference is not valid and memory is untouched.  Otherwise the reference
    is valid, points at the block, and the counter has been incremented by
    one ([std::atomic<int>] arithmetic; exactly [+1] below [INT_MAX]) while
    the flag, the object and every other block are as before. *)
Theorem ArrayP_ctor_contract (arg : ERL_NIF_TERM) (m : memory) :
  let a := fst (ArrayP_ctor env arg m) in
  let m' := snd (ArrayP_ctor env arg m) in
  match enif_get_resource env arg ARRAY_TYPE with
  | None =>
      is_valid a = false /\ error a = Some (Invalid env) /\ m' = m
  | Some p =>
      if refcount (m p) =? 0
      then is_valid a = false /\ error a = Some (Deallocated env) /\ m' = m
      else is_valid a = true /\ data a = Some p /\
           refcount (m' p) = wrap_int (refcount (m p) + 1) /\
           (INT_MIN <= refcount (m p) < INT_MAX ->
            refcount (m' p) = refcount (m p) + 1) /\
           deleted (m' p) = deleted (m p) /\
           destructor_runs (m' p) = destructor_runs (m p) /\
           object (m' p) = object (m p) /\
           (forall q, q <> p -> m' q = m q)
  end.
Proof.
  intros a m'. subst a m'. unfold ArrayP_ctor.
  destruct (enif_get_resource env arg ARRAY_TYPE) as [p|]; [|now repeat split].
  unfold load. destruct (refcount (m p) =? 0) eqn:E; [now repeat split|].
  handle_simpl. repeat split; try reflexivity.
  - intros H. apply wrap_int_in_range. unfold INT_MIN, INT_MAX in *. lia.
  - intros q Hq. now apply store_other.
Qed.


(** At counter zero a call on the handle, be it an acquire/release pair or
    a deallocating call, changes nothing. *)
Lemma do_call_at_zero (tok : ERL_NIF_TERM) (p : pointer) (c : handle_call) (m : memory) :
  enif_get_resource env tok ARRAY_TYPE = Some p -> refcount (m p) = 0 ->
  do_call env tok c m = m.
Proof.
  intros Hr Hc.
  destruct c; unfold do_call, with_reference;
    rewrite (ArrayP_ctor_dead tok p m Hr Hc); reflexivity.
Qed.


End Acquire.

Section AcquireAfterRelease.




End AcquireAfterRelease.

Section FlagIsMonotone.

Variable env : ErlNifEnv.
Variable tok : ERL_NIF_TERM.

Lemma store_field (m : memory) (p q : pointer) (r : array_resource)
      {X : Type} (f : array_resource -> X) :
  f r = f (m p) -> f (store m p r q) = f (m q).
Proof.
  intros H. unfold store. destruct (Nat.eqb q p) eqn:E; [|reflexivity].
  apply Nat.eqb_eq in E. now subst.
Qed.

Lemma ArrayP_ctor_deleted (m : memory) (q : pointer) :
  deleted (snd (ArrayP_ctor env tok m) q) = deleted (m q).
Proof.
  unfold ArrayP_ctor. destruct (enif_get_resource env tok ARRAY_TYPE) as [p|];
    [|reflexivity].
  destruct (load (m p) =? 0); [reflexivity|]. cbn [snd].
  now apply store_field.
Qed.

Lemma ArrayP_dtor_deleted (a : ArrayP) (m : memory) (q : pointer) :
  deleted (ArrayP_dtor a m q) = deleted (m q).
Proof.
  unfold ArrayP_dtor. destruct (ptr a) as [p|]; [|reflexivity].
  cbn [fetch_sub]. apply store_field.
  destruct (refcount (m p) =? 0); reflexivity.
Qed.

Lemma deallocate_keeps_flag (a : ArrayP) (m : memory) (q : pointer) :
  deleted (m q) = true -> deleted (snd (deallocate a m) q) = true.
Proof.
  intros H. unfold deallocate. destruct (ptr a) as [p|]; [|exact H].
  cbn [atomic_flag_test_and_set].
  destruct (negb (deleted (m p))); cbn [snd]; unfold store;
    destruct (Nat.eqb q p); auto.
Qed.

Lemma do_call_keeps_flag (c : handle_call) (m : memory) (q : pointer) :
  deleted (m q) = true -> deleted (do_call env tok c m q) = true.
Proof.
  intros H. destruct c; unfold do_call, with_reference.
  - destruct (ArrayP_ctor env tok m) as [a m1] eqn:E.
    assert (H1 : deleted (m1 q) = true).
    { replace m1 with (snd (ArrayP_ctor env tok m)) by now rewrite E.
      now rewrite ArrayP_ctor_deleted. }
    destruct (is_valid a); cbn [snd]; now rewrite ArrayP_dtor_deleted.
  - destruct (ArrayP_ctor env tok m) as [a m1] eqn:E.
    assert (H1 : deleted (m1 q) = true).
    { replace m1 with (snd (ArrayP_ctor env tok m)) by now rewrite E.
      now rewrite ArrayP_ctor_deleted. }
    destruct (is_valid a).
    + destruct (deallocate a m1) as [b m2] eqn:E2. cbn [snd].
      rewrite ArrayP_dtor_deleted.
      replace m2 with (snd (deallocate a m1)) by now rewrite E2.
      now apply deallocate_keeps_flag.
    + cbn [snd]. now rewrite ArrayP_dtor_deleted.
Qed.

Lemma do_calls_keep_flag (cs : list handle_call) (q : pointer) :
  forall m, deleted (m q) = true -> deleted (do_calls env tok cs m q) = true.
Proof.
  induction cs as [|c cs IH]; intros m H; [exact H|].
  cbn [do_calls]. apply IH. now apply do_call_keeps_flag.
Qed.

(** With the flag set, [deallocate] reports failure and rewrites the block
    with what it already holds. *)
Lemma deallocate_when_flag_set (a : ArrayP) (p : pointer) (m : memory) :
  ptr a = Some p -> deleted (m p) = true ->
  fst (deallocate a m) = false /\ forall q, snd (deallocate a m) q = m q.
Proof.
  intros Hp Hd. unfold deallocate. rewrite Hp. cbn [atomic_flag_test_and_set].
  rewrite Hd. cbn [negb fst snd]. split; [reflexivity|].
  apply store_unchanged. destruct (m p); cbn in *. now subst.
Qed.

Lemma deallocate_many_when_flag_set (a : ArrayP) (p : pointer) (n : nat) :
  ptr a = Some p ->
  forall m, deleted (m p) = true ->
  fst (deallocate_many a n m) = repeat false n /\
  forall q, snd (deallocate_many a n m) q = m q.
Proof.
  intros Hp. induction n as [|n IH]; intros m Hd; [now split|].
  cbn [deallocate_many repeat].
  destruct (deallocate_when_flag_set a p m Hp Hd) as [Hf Hm].
  destruct (deallocate a m) as [b m1]. cbn [fst snd] in Hf, Hm. subst b.
  assert (Hd1 : deleted (m1 p) = true) by now rewrite Hm.
  destruct (IH m1 Hd1) as [Hf' Hm'].
  destruct (deallocate_many a n m1) as [bs m2]. cbn [fst snd] in *.
  split; [now rewrite Hf'|]. intros q. now rewrite Hm', Hm.
Qed.

End FlagIsMonotone.

Section Deallocate.

(** C6.  Through a valid reference to a block whose flag is clear, the
    first [deallocate] returns true, sets the flag and decrements the
    counter by one ([std::atomic<int>] arithmetic; exactly [-1] above
    [INT_MIN]) without running the destructor.  Every later call through
    any reference to the block returns false and leaves every block as it
    was: immediately, repeated any number of times, and after any further
    acquire/release pairs and deallocating calls made with any token. *)
Theorem deallocate_one_shot
        (env : ErlNifEnv) (tok : ERL_NIF_TERM)
        (a : ArrayP) (p : pointer) (m : memory) :
  ptr a = Some p ->
  deleted (m p) = false ->
  let m1 := snd (deallocate a m) in
  fst (deallocate a m) = true /\
  refcount (m1 p) = wrap_int (refcount (m p) - 1) /\
  (INT_MIN < refcount (m p) <= INT_MAX -> refcount (m1 p) = refcount (m p) - 1) /\
  deleted (m1 p) = true /\
  destructor_runs (m1 p) = destructor_runs (m p) /\
  (forall q, q <> p -> m1 q = m q) /\
  (forall a' n, ptr a' = Some p ->
                fst (deallocate_many a' n m1) = repeat false n /\
                forall q, snd (deallocate_many a' n m1) q = m1 q) /\
  (forall a' cs, ptr a' = Some p ->
                 let m2 := do_calls env tok cs m1 in
                 fst (deallocate a' m2) = false /\
                 forall q, snd (deallocate a' m2) q = m2 q).
Proof.
  intros Hp Hd m1.
  assert (E : deallocate a m = (true, store m p (pre_decrement (snd (atomic_flag_test_and_set (m p)))))).
  { unfold deallocate. rewrite Hp. cbn [atomic_flag_test_and_set]. now rewrite Hd. }
  assert (Hset : deleted (m1 p) = true).
  { subst m1. rewrite E. now handle_simpl. }
  subst m1. rewrite E in *. cbn [fst snd] in *.
  repeat split.
  - now handle_simpl.
  - intros H. handle_simpl. apply wrap_int_in_range.
    unfold INT_MIN, INT_MAX in *. lia.
  - exact Hset.
  - now handle_simpl.
  - intros q Hq. now apply store_other.
  - now apply (deallocate_many_when_flag_set a' p n).
  - now apply (deallocate_many_when_flag_set a' p n).
  - apply (deallocate_when_flag_set a' p); [assumption|].
    now apply do_calls_keep_flag.
  - apply (deallocate_when_flag_set a' p); [assumption|].
    now apply do_calls_keep_flag.
Qed.

Lemma deallocate_one_shot_witness :
  let env := 0%nat in
  let tok := enif_make_resource env ARRAY_TYPE 1%nat in
  let a := reference_to 1%nat in
  let m : memory := fun _ => mkResource (MlxArray 7) 0 2 false in
  let m1 := snd (deallocate a m) in
  fst (deallocate a m) = true /\
  refcount (m1 1%nat) = wrap_int (refcount (m 1%nat) - 1) /\
  (INT_MIN < refcount (m 1%nat) <= INT_MAX ->
   refcount (m1 1%nat) = refcount (m 1%nat) - 1) /\
  deleted (m1 1%nat) = true /\
  destructor_runs (m1 1%nat) = destructor_runs (m 1%nat) /\
  (forall q, q <> 1%nat -> m1 q = m q) /\
  (forall a' n, ptr a' = Some 1%nat ->
                fst (deallocate_many a' n m1) = repeat false n /\
                forall q, snd (deallocate_many a' n m1) q = m1 q) /\
  (forall a' cs, ptr a' = Some 1%nat ->
                 let m2 := do_calls env tok cs m1 in
                 fst (deallocate a' m2) = false /\
                 forall q, snd (deallocate a' m2) q = m2 q).
Proof.
  intros env tok a m.
  apply (deallocate_one_shot env tok a 1%nat m); reflexivity.
Defined.

End Deallocate.

Section Release.

(** The block of a valid reference after [~ArrayP], and the outcome of
    [deallocate] on a clear flag. *)
Lemma ArrayP_dtor_block (p : pointer) (m : memory) :
  ArrayP_dtor (reference_to p) m p =
    (if refcount (m p) =? 0
     then destroy_array (set_refcount (m p) (wrap_int (refcount (m p) - 1)))
     else set_refcount (m p) (wrap_int (refcount (m p) - 1))).
Proof. unfold ArrayP_dtor. cbn [reference_to ptr fetch_sub]. now rewrite store_same. Qed.

Lemma deallocate_wins (p : pointer) (m : memory) :
  deleted (m p) = false ->
  deallocate (reference_to p) m =
    (true, store m p (mkResource (object (m p)) (destructor_runs (m p))
                                 (wrap_int (refcount (m p) - 1)) true)).
Proof.
  intros H. unfold deallocate. cbn [reference_to ptr atomic_flag_test_and_set].
  rewrite H. reflexivity.
Qed.

(** What [~ArrayP] does to the block of a valid reference: the counter is
    decremented, and [~array()] runs exactly when the counter read zero
    before the decrement.  A reference that is not valid touches nothing. *)
Lemma ArrayP_dtor_effect (p : pointer) (m : memory) :
  let m' := ArrayP_dtor (reference_to p) m in
  refcount (m' p) = wrap_int (refcount (m p) - 1) /\
  destructor_runs (m' p) =
    (if refcount (m p) =? 0 then S (destructor_runs (m p)) else destructor_runs (m p)) /\
  deleted (m' p) = deleted (m p) /\
  (forall q, q <> p -> m' q = m q).
Proof.
  unfold ArrayP_dtor. handle_simpl.
  destruct (refcount (m p) =? 0); handle_simpl; repeat split;
    intros q Hq; now apply store_other.
Qed.

Lemma ArrayP_dtor_invalid (e : option ERL_NIF_TERM) (m : memory) :
  ArrayP_dtor (mkArrayP None e) m = m.
Proof. reflexivity. Qed.

(** C1.  The release of a reference at counter 1: after
    [create_array_resource], a construction and a successful [deallocate]
    the counter reads 1; [~ArrayP] then takes it from 1 to 0 and the array's
    destructor has not run.  On a block whose counter reads 0, [~ArrayP]
    takes the counter to -1 and does run the destructor. *)
Theorem release_from_one_to_zero_runs_no_destructor :
  (let env := 0%nat in
   let blank : memory := fun _ => mkResource (MlxArray 0) 0 0 false in
   let (tok, m1) := create_array_resource env (Some 1%nat) (MlxArray 7) blank in
   let (a, m2) := ArrayP_ctor env tok m1 in
   let (won, m3) := deallocate a m2 in
   let m4 := ArrayP_dtor a m3 in
   is_valid a = true /\ won = true /\
   refcount (m3 1%nat) = 1 /\ refcount (m4 1%nat) = 0 /\
   destructor_runs (m3 1%nat) = 0%nat /\ destructor_runs (m4 1%nat) = 0%nat) /\
  (forall (p : pointer) (m : memory),
      let m' := ArrayP_dtor (reference_to p) (store m p (set_refcount (m p) 0)) in
      refcount (m' p) = -1 /\ destructor_runs (m' p) = S (destructor_runs (m p))).
Proof.
  split; [vm_compute; repeat split|].
  intros p m m'. subst m'. rewrite ArrayP_dtor_block, store_same.
  split; reflexivity.
Qed.

End Release.

Section Histories.

Variable env : ErlNifEnv.
Variable p : pointer.

Let tok : ERL_NIF_TERM := enif_make_resource env ARRAY_TYPE p.

(** A call on a fresh block: an acquire/release pair returns the block to
    what it was; a deallocating call leaves the counter at zero and the flag
    set.  The destructor count is untouched in both. *)
Lemma do_call_on_fresh (c : handle_call) (m : memory) :
  refcount (m p) = 1 -> deleted (m p) = false ->
  do_call env tok c m p =
    match c with
    | Use => m p
    | Deallocate => mkResource (object (m p)) (destructor_runs (m p)) 0 true
    end.
Proof.
  intros Hc Hf.
  assert (L : ArrayP_ctor env tok m = (reference_to p, store m p (pre_increment (m p)))).
  { apply (ArrayP_ctor_live env tok p m); [reflexivity | lia]. }
  destruct (m p) as [o d k f] eqn:E. cbn in Hc, Hf. subst k f.
  destruct c; unfold do_call, with_reference; rewrite L;
    cbn [is_valid reference_to ptr snd]; unfold deallocate, ArrayP_dtor;
    repeat (cbn; rewrite ?store_same); reflexivity.
Qed.

Lemma do_call_fresh_or_deallocated (c : handle_call) (m : memory) :
  fresh_or_deallocated (m p) -> fresh_or_deallocated (do_call env tok c m p).
Proof.
  intros [Hd [[Hc Hf] | [Hc Hf]]].
  - rewrite (do_call_on_fresh c m Hc Hf). destruct c.
    + split; [assumption | now left].
    + split; [assumption | now right].
  - rewrite (do_call_at_zero env tok p c m (created_token_resolves env env p) Hc).
    split; [assumption | now right].
Qed.

Lemma do_calls_fresh_or_deallocated (cs : list handle_call) :
  forall m, fresh_or_deallocated (m p) ->
            fresh_or_deallocated (do_calls env tok cs m p).
Proof.
  induction cs as [|c cs IH]; intros m H; [exact H|].
  cbn [do_calls]. apply IH. now apply do_call_fresh_or_deallocated.
Qed.

(** Between calls the counter of a created handle reads 1 with the flag
    clear, or 0 with the flag set, and the destructor has not run. *)
Theorem created_handle_is_fresh_or_deallocated
        (o : array) (m : memory) (cs : list handle_call) :
  fresh_or_deallocated
    (do_calls env tok cs (snd (create_array_resource env (Some p) o m)) p).
Proof.
  apply do_calls_fresh_or_deallocated.
  cbn [create_array_resource snd]. rewrite store_same.
  split; [reflexivity | now left].
Qed.


(** C4.  The sequential scenario on one handle: creation, one
    acquire/release pair, a [deallocate] made through a reference of its
    own, and a further construction.  The counter reads 1, 2, 1 and, after
    the deallocating call, 0; [deallocate] reports success and leaves the
    counter at 1, so that the step from 1 to 0 is made by [~ArrayP] at the
    end of that call; the array's destructor has run at none of these
    points; the last construction fails with the [Deallocated] error. *)
Theorem create_use_deallocate_scenario (o : array) (m : memory) :
  let m1 := snd (create_array_resource env (Some p) o m) in
  let a := fst (ArrayP_ctor env tok m1) in
  let m2 := snd (ArrayP_ctor env tok m1) in
  let m3 := ArrayP_dtor a m2 in
  let won := fst (with_reference env tok deallocate m3) in
  let m4 := snd (with_reference env tok deallocate m3) in
  let b := fst (ArrayP_ctor env tok m4) in
  let inside := snd (deallocate (reference_to p) (snd (ArrayP_ctor env tok m3))) in
  fst (create_array_resource env (Some p) o m) = tok /\
  map (fun s : memory => refcount (s p)) [m1; m2; m3; m4] = [1; 2; 1; 0] /\
  won = inr true /\
  map (fun s : memory => destructor_runs (s p)) [m1; m2; m3; m4] = [0; 0; 0; 0]%nat /\
  refcount (inside p) = 1 /\ m4 = ArrayP_dtor (reference_to p) inside /\
  is_valid b = false /\ error b = Some (Deallocated env).
Proof.
  intros m1 a m2 m3 won m4 b inside.
  assert (E1 : m1 p = mkResource o 0%nat 1 false).
  { subst m1. cbn [create_array_resource snd]. now rewrite store_same. }
  assert (C1 : ArrayP_ctor env tok m1 = (reference_to p, store m1 p (pre_increment (m1 p)))).
  { apply (ArrayP_ctor_live env tok p m1); [reflexivity | rewrite E1; discriminate]. }
  assert (E2 : m2 p = mkResource o 0%nat 2 false).
  { subst m2. rewrite C1. cbn [snd]. rewrite store_same, E1. reflexivity. }
  assert (E3 : m3 p = mkResource o 0%nat 1 false).
  { subst m3 a. rewrite C1. cbn [fst]. rewrite ArrayP_dtor_block. fold m2.
    rewrite E2. reflexivity. }
  assert (C3 : ArrayP_ctor env tok m3 = (reference_to p, store m3 p (pre_increment (m3 p)))).
  { apply (ArrayP_ctor_live env tok p m3); [reflexivity | rewrite E3; discriminate]. }
  set (m3a := store m3 p (pre_increment (m3 p))) in *.
  assert (E3a : m3a p = mkResource o 0%nat 2 false).
  { subst m3a. rewrite store_same, E3. reflexivity. }
  assert (D : deallocate (reference_to p) m3a = (true, inside)).
  { subst inside. rewrite C3. cbn [snd]. fold m3a. rewrite deallocate_wins; [reflexivity|].
    now rewrite E3a. }
  assert (Ei : inside p = mkResource o 0%nat 1 true).
  { replace inside with (snd (deallocate (reference_to p) m3a)) by now rewrite D.
    rewrite deallocate_wins by now rewrite E3a.
    cbn [snd]. rewrite store_same, E3a. reflexivity. }
  assert (W : with_reference env tok deallocate m3 = (inr true, ArrayP_dtor (reference_to p) inside)).
  { unfold with_reference. rewrite C3. cbn [is_valid reference_to ptr]. now rewrite D. }
  assert (E4 : m4 p = mkResource o 0%nat 0 true).
  { subst m4. rewrite W. cbn [snd]. rewrite ArrayP_dtor_block, Ei. reflexivity. }
  assert (C4 : ArrayP_ctor env tok m4 = (mkArrayP None (Some (Deallocated env)), m4)).
  { apply (ArrayP_ctor_dead env tok p m4); [reflexivity | now rewrite E4]. }
  subst b won. rewrite C4, W. cbn [fst snd map]. rewrite E1, E2, E3, E4, Ei.
  repeat split. subst m4. now rewrite W.
Qed.

End Histories.

Section Finalizer.

Variable env : ErlNifEnv.
Variable p : pointer.

Let tok : ERL_NIF_TERM := enif_make_resource env ARRAY_TYPE p.

(** Constructions in a row from a counter that stands for [z] references:
    as long as no more than [2^32] are reached, each one is valid and the
    counter stands for [z + n] afterwards. *)
Lemma acquire_many_counts (n : nat) :
  forall (m : memory) (z : Z),
    refcount (m p) = wrap_int z -> 0 < z -> z + Z.of_nat n <= 2 ^ 32 ->
    fst (acquire_many env tok n m) = repeat (reference_to p) n /\
    refcount (snd (acquire_many env tok n m) p) = wrap_int (z + Z.of_nat n) /\
    destructor_runs (snd (acquire_many env tok n m) p) = destructor_runs (m p).
Proof.
  induction n as [|n IH]; intros m z Hc Hz Hn.
  - cbn [acquire_many fst snd repeat]. rewrite Z.add_0_r. auto.
  - cbn [acquire_many].
    rewrite (ArrayP_ctor_live env tok p m).
    + specialize (IH (store m p (pre_increment (m p))) (z + 1)).
      destruct (acquire_many env tok n (store m p (pre_increment (m p)))) as [refs m2].
      cbn [fst snd repeat] in *.
      destruct IH as (Hr & Hc2 & Hd2).
      * rewrite store_same. cbn [pre_increment set_refcount refcount].
        rewrite Hc. apply wrap_int_add.
      * lia.
      * lia.
      * rewrite Hr, Hc2, Hd2, store_same. repeat split. f_equal. lia.
    + reflexivity.
    + rewrite Hc. apply wrap_int_nonzero. lia.
Qed.

(** C9.  [free_array] runs the array's destructor whatever the counter and
    the flag hold, and changes neither.  So when [~ArrayP] has run the
    destructor, the finalizer runs it a second time; this happens on a
    created handle once [2^32 - 1] references are alive at the same time,
    which makes the counter read zero. *)
Theorem free_array_ignores_counter_and_flag (o : array) (m : memory) :
  (forall (c : Z) (d : bool),
      let m0 := store m p (mkResource (object (m p)) (destructor_runs (m p)) c d) in
      let m1 := free_array (Some p) m0 in
      destructor_runs (m1 p) = S (destructor_runs (m p)) /\
      refcount (m1 p) = c /\ deleted (m1 p) = d) /\
  (let m0 := store m p (set_refcount (m p) 0) in
   let m1 := ArrayP_dtor (reference_to p) m0 in
   destructor_runs (m1 p) = S (destructor_runs (m p)) /\
   destructor_runs (free_array (Some p) m1 p) = S (S (destructor_runs (m p)))) /\
  (exists n : nat,
      let m1 := snd (create_array_resource env (Some p) o m) in
      let refs := fst (acquire_many env tok n m1) in
      let m2 := snd (acquire_many env tok n m1) in
      let m3 := ArrayP_dtor (reference_to p) m2 in
      Z.of_nat n = 2 ^ 32 - 1 /\
      refs = repeat (reference_to p) n /\
      refcount (m2 p) = 0 /\
      destructor_runs (m2 p) = 0%nat /\
      destructor_runs (m3 p) = 1%nat /\
      destructor_runs (free_array (Some p) m3 p) = 2%nat).
Proof.
  split; [|split].
  - intros c d m0 m1. subst m0 m1. unfold free_array.
    rewrite !store_same. cbn. auto.
  - cbn zeta. unfold free_array, ArrayP_dtor.
    repeat (cbn; rewrite ?store_same). auto.
  - exists (Z.to_nat (2 ^ 32 - 1)). cbn zeta.
    set (m1 := snd (create_array_resource env (Some p) o m)).
    assert (E1 : m1 p = mkResource o 0%nat 1 false).
    { subst m1. cbn [create_array_resource snd]. now rewrite store_same. }
    destruct (acquire_many_counts (Z.to_nat (2 ^ 32 - 1)) m1 1) as (Hr & Hc & Hd).
    + rewrite E1. reflexivity.
    + lia.
    + rewrite Z2Nat.id; [rewrite two_32; lia | rewrite two_32; lia].
    + rewrite Z2Nat.id in Hc by (rewrite two_32; lia).
      replace (1 + (2 ^ 32 - 1)) with (2 ^ 32) in Hc by lia.
      rewrite wrap_int_two_32 in Hc. rewrite E1 in Hd. cbn [destructor_runs] in Hd.
      assert (Hk : destructor_runs
                     (ArrayP_dtor (reference_to p)
                        (snd (acquire_many env tok (Z.to_nat (2 ^ 32 - 1)) m1)) p) = 1%nat).
      { rewrite ArrayP_dtor_block, Hc. cbn [Z.eqb destroy_array set_refcount destructor_runs].
        now rewrite Hd. }
      split; [rewrite Z2Nat.id; [reflexivity | rewrite two_32; lia]|].
      repeat split; try assumption.
      unfold free_array. rewrite store_same. cbn [destroy_array destructor_runs].
      now rewrite Hk.
Qed.

End Finalizer.

(* ================================================================== *)
(** * Properties of the call bridge *)
(* ================================================================== *)

Section Prepare.

(** C7.  [prepare_nif_call] on each of its five paths, with everything
    it obtains and gives back, in order.  The pieces are obtained in the
    order resource block, environment, mutex, condition variable, and the
    first failure ends the attempt with NULL, on which [make_nif_call]
    returns the [enomem] atom.  A failure of the first or of the second
    allocation gives back what was obtained, once.  A failure of the mutex
    or of the condition variable gives the environment, and the mutex,
    back twice: once by the explicit call and once more by
    [destruct_nif_call_res], which the release of the block runs and which
    finds the pointers still set.  These two are the only paths on which a
    piece is given back more often than it was obtained. *)
Theorem prepare_nif_call_failure_paths (o : allocator) :
  let got := fst (prepare_nif_call o) in
  let log := snd (prepare_nif_call o) in
  match enif_alloc_resource o, enif_alloc_env o, enif_mutex_create o, enif_cond_create o with
  | None, _, _, _ => got = None /\ log = []
  | Some _, None, _, _ =>
      got = None /\ log = [Obtained TheResource; GivenBack TheResource]
  | Some _, Some _, None, _ =>
      got = None /\
      log = [Obtained TheResource; Obtained TheEnv;
             GivenBack TheEnv;
             GivenBack TheEnv; GivenBack TheResource]
  | Some _, Some _, Some _, None =>
      got = None /\
      log = [Obtained TheResource; Obtained TheEnv; Obtained TheMutex;
             GivenBack TheEnv; GivenBack TheMutex;
             GivenBack TheMutex; GivenBack TheEnv; GivenBack TheResource]
  | Some _, Some e, Some mx, Some cd =>
      got = Some (mkRes (Some e) (Some mx) (Some cd) kAtomNil false) /\
      log = [Obtained TheResource; Obtained TheEnv; Obtained TheMutex; Obtained TheCond]
  end /\
  (got = None ->
   forall c completions sched, make_nif_call c o completions sched = Some kAtomENOMEM) /\
  ((forall pc, (given_back log pc <= obtained log pc)%nat) <->
   match enif_alloc_resource o, enif_alloc_env o, enif_mutex_create o, enif_cond_create o with
   | Some _, Some _, None, _ | Some _, Some _, Some _, None => False
   | _, _, _, _ => True
   end).
Proof.
  destruct o as [[r|] [e|] [mx|] [cd|]]; cbn zeta; unfold make_nif_call; cbn;
    (split; [now split|]); (split; [intros H; try discriminate H; reflexivity|]);
    (split; [intros H; try exact I; try (specialize (H TheEnv); cbn in H; lia)
            | intros H; try contradiction; intros []; cbn; lia]).
Qed.

(** On the two failure paths that come after the environment was obtained,
    the explicit release is followed by the resource destructor, which
    finds the pointers still set and releases the same pieces again. *)
Lemma prepare_nif_call_gives_back_twice (r : pointer) (e : ErlNifEnv) (mx : ErlNifMutex) :
  given_back (snd (prepare_nif_call (mkAllocator (Some r) (Some e) None None))) TheEnv = 2%nat /\
  given_back (snd (prepare_nif_call (mkAllocator (Some r) (Some e) (Some mx) None))) TheEnv = 2%nat /\
  given_back (snd (prepare_nif_call (mkAllocator (Some r) (Some e) (Some mx) None))) TheMutex = 2%nat.
Proof. repeat split. Qed.

End Prepare.

Section Evaluated.

(** The call never reads the flag: it does the same whatever the flag
    holds, up to the flag itself, which it sets. *)
Lemma nif_call_evaluated_ok (env : ErlNifEnv) (argv0 argv1 : ERL_NIF_TERM)
      (s : system) (q : pointer) (e : ErlNifEnv) :
  enif_get_resource env argv0 CallbackNifRes_type = Some q ->
  msg_env (res s) = Some e ->
  nif_call_evaluated env argv0 argv1 s =
    Some (enif_make_atom env "ok",
          mkSystem (res_at s)
                   (mkRes (msg_env (res s)) (mtx (res s)) (cond (res s))
                          (enif_make_copy e argv1) true)
                   (mutex_locked s) (S (signals s)) (mailbox s)
                   (match caller s with Sleeping => Signalled | pc => pc end)
                   (evaluator s) (pending s) (reference_released s)).
Proof.
  intros Hr He. unfold nif_call_evaluated, store_return_value. rewrite Hr, He.
  reflexivity.
Qed.

(** C10.  On a context whose flag is already set, [nif_call_evaluated]
    does not refuse: it returns the atom [ok], the result slot holds the copy
    of the new value in the context's environment, the flag is still set, and
    the condition variable has been signalled once more. *)
Theorem nif_call_evaluated_twice_overwrites
        (env : ErlNifEnv) (argv0 argv1 : ERL_NIF_TERM) (s : system) (e : ErlNifEnv) :
  enif_get_resource env argv0 CallbackNifRes_type = Some (res_at s) ->
  msg_env (res s) = Some e ->
  return_value_set (res s) = true ->
  exists s',
    nif_call_evaluated env argv0 argv1 s = Some (enif_make_atom env "ok", s') /\
    return_value (res s') = enif_make_copy e argv1 /\
    return_value_set (res s') = true /\
    signals s' = S (signals s) /\
    (caller s = Sleeping -> caller s' = Signalled) /\
    msg_env (res s') = msg_env (res s) /\
    mtx (res s') = mtx (res s) /\ cond (res s') = cond (res s).
Proof.
  intros Hr He _. eexists. split.
  - apply (nif_call_evaluated_ok env argv0 argv1 s (res_at s) e Hr He).
  - cbn. repeat split. intros ->. reflexivity.
Qed.

Lemma nif_call_evaluated_twice_overwrites_witness :
  let env := 5%nat in
  let first := mkTerm 5%nat (Integer 3) in
  let second := mkTerm 5%nat (Integer 4) in
  let s := mkSystem 40%nat
                    (mkRes (Some 2%nat) (Some 41%nat) (Some 42%nat)
                           (enif_make_copy 2%nat first) true)
                    false 1%nat [] AtUnlock Idle [] false in
  let argv0 := enif_make_resource env CallbackNifRes_type 40%nat in
  exists s',
    nif_call_evaluated env argv0 second s = Some (enif_make_atom env "ok", s') /\
    return_value (res s') = enif_make_copy 2%nat second /\
    return_value_set (res s') = true /\
    signals s' = S (signals s) /\
    (caller s = Sleeping -> caller s' = Signalled) /\
    msg_env (res s') = msg_env (res s) /\
    mtx (res s') = mtx (res s) /\ cond (res s') = cond (res s).
Proof.
  intros env first second s argv0.
  apply (nif_call_evaluated_twice_overwrites env argv0 second s 2%nat); reflexivity.
Defined.

End Evaluated.

(** The cases of a statement that has moved: every test it made is
    settled, and the state it led to is named. *)
Ltac step_cases :=
  repeat match goal with
         | H : match ?x with _ => _ end = Some _ |- _ => destruct x eqn:?; cbn in H
         | H : (if ?x then _ else _) = Some _ |- _ => destruct x eqn:?; cbn in H
         | H : Some _ = Some _ |- _ => inversion H; subst; clear H
         | H : None = Some _ |- _ => discriminate H
         end.

Section Call.

Variable c : call.
Variable p : pointer.
Variable e : ErlNifEnv.
Variables mx cd : pointer.
Variable v : ERL_NIF_TERM.

Let o : allocator := mkAllocator (Some p) (Some e) (Some mx) (Some cd).
Let r : CallbackNifRes := mkRes (Some e) (Some mx) (Some cd) kAtomNil false.

(** With an allocator that never fails, [prepare_nif_call] yields [r]. *)
Lemma prepare_nif_call_succeeds :
  prepare_nif_call o =
    (Some r, [Obtained TheResource; Obtained TheEnv; Obtained TheMutex; Obtained TheCond]).
Proof. reflexivity. Qed.

(** [consistent] holds at the start and is kept by every statement of
    either thread, by a wake-up, and, out of program order, by the flag
    store that overtakes the value store. *)
Lemma started_consistent (po : bool) : consistent po c e v (started p r [v]).
Proof. repeat split. now left. Qed.

Lemma caller_step_consistent (po : bool) (s s' : system) :
  consistent po c e v s -> caller_step c s = Some s' -> consistent po c e v s'.
Proof.
  intros (He & Hev & Hc & Hm & Hl) Hs. unfold caller_step in Hs.
  destruct s as [ra rs ml sg mb pc ev pd rr]. cbn in *.
  destruct pc; cbn in *; step_cases;
    unfold consistent; cbn; repeat split; auto.
  all: try (right; now destruct mb).
  all: try (destruct ev; destruct pd as [|? [|? ?]]; cbn in *; intuition congruence).
Qed.

Lemma evaluator_step_consistent (po : bool) (s s' : system) :
  consistent po c e v s -> evaluator_step s = Some s' -> consistent po c e v s'.
Proof.
  intros (He & Hev & Hc & Hm & Hl) Hs. unfold evaluator_step, store_return_value in Hs.
  destruct s as [ra rs ml sg mb pc ev pd rr]. cbn in *.
  destruct ev; destruct pd as [|w [|w' pd]]; cbn in *; try contradiction;
    step_cases;
    unfold consistent; cbn; decompose [and] Hev; subst;
    try (destruct pc; cbn in *; repeat split; intuition congruence).
Qed.

Lemma spurious_wakeup_consistent (po : bool) (s s' : system) :
  consistent po c e v s -> spurious_wakeup s = Some s' -> consistent po c e v s'.
Proof.
  intros (He & Hev & Hc & Hm & Hl) Hs. unfold spurious_wakeup in Hs.
  destruct s as [ra rs ml sg mb pc ev pd rr]. cbn in *.
  destruct pc; try discriminate. inversion Hs; subst; clear Hs.
  unfold consistent; cbn. repeat split; auto.
  right. destruct Hm as [Hm | Hm]; [discriminate Hm | exact Hm].
Qed.

Lemma flag_store_first_consistent (s s' : system) :
  consistent false c e v s -> flag_store_first s = Some s' -> consistent false c e v s'.
Proof.
  intros (He & Hev & Hc & Hm & Hl) Hs. unfold flag_store_first in Hs.
  destruct s as [ra rs ml sg mb pc ev pd rr]. cbn in *.
  destruct ev; try discriminate. inversion Hs; subst; clear Hs.
  destruct pd as [|w pd]; [|contradiction].
  unfold consistent; cbn. decompose [and] Hev; subst.
  destruct pc; cbn in *; repeat split; intuition congruence.
Qed.

Lemma run_consistent (po : bool) (sched : list actor) :
  (po = true -> program_order sched) ->
  forall s s', consistent po c e v s -> run c sched s = Some s' -> consistent po c e v s'.
Proof.
  induction sched as [|a sched IH]; intros Hpo s s' H Hr; cbn in Hr.
  - now inversion Hr; subst.
  - destruct (step c a s) as [s1|] eqn:E; [|discriminate].
    apply (IH (fun H0 H1 => Hpo H0 (or_intror H1)) s1 s'); [|assumption].
    destruct a; cbn in E.
    + now apply (caller_step_consistent po s s1).
    + now apply (evaluator_step_consistent po s s1).
    + now apply (spurious_wakeup_consistent po s s1).
    + destruct po.
      * exfalso. apply (Hpo eq_refl). now left.
      * now apply (flag_store_first_consistent s s1).
Qed.

(** The flag store overtakes the value store: the caller finds the flag
    set, leaves its loop and copies the slot, which still holds the nil of
    line 78. *)
Lemma make_nif_call_returns_nil_out_of_order :
  make_nif_call c o [v] [Caller; Evaluator; Reorder; Caller; Caller; Caller; Caller]
  = Some (enif_make_copy (caller_env c) kAtomNil).
Proof. reflexivity. Qed.

(** The value [make_nif_call] returns after one completion with [v].  When
    the two stores of [nif_call_evaluated] take effect in program order,
    it is, under every schedule in which the call returns, the copy of [v]
    into the caller's environment: the same value, owned by the caller.
    Nothing in the source enforces that order, and without it the call
    returns the copy of [v] or of the initial nil; a schedule under which
    it returns nil exists. *)
Theorem make_nif_call_returns_the_completion :
  (forall sched x,
      make_nif_call c o [v] sched = Some x ->
      (program_order sched ->
       x = enif_make_copy (caller_env c) v /\ same_value x v /\
       term_env x = caller_env c) /\
      (x = enif_make_copy (caller_env c) v \/
       x = enif_make_copy (caller_env c) kAtomNil)) /\
  (exists sched,
      ~ program_order sched /\
      make_nif_call c o [v] sched = Some (enif_make_copy (caller_env c) kAtomNil)).
Proof.
  split.
  - intros sched x. unfold make_nif_call. rewrite prepare_nif_call_succeeds.
    cbn [o enif_alloc_resource].
    destruct (run c sched (started p r [v])) as [s|] eqn:E; [|discriminate].
    destruct (caller s) as [| | | | | | | |y] eqn:C; try discriminate.
    intros H; inversion H; subst y. split.
    + intros Hpo.
      pose proof (run_consistent true sched (fun _ => Hpo) _ _ (started_consistent true) E)
        as (_ & _ & Hc & _).
      rewrite C in Hc. destruct Hc as [_ [-> | [F _]]]; [repeat split | discriminate F].
    + pose proof (run_consistent false sched (fun F => False_ind _ (Bool.diff_false_true F))
                                 _ _ (started_consistent false) E)
        as (_ & _ & Hc & _).
      rewrite C in Hc. destruct Hc as [_ [-> | [_ ->]]]; [now left | now right].
  - exists [Caller; Evaluator; Reorder; Caller; Caller; Caller; Caller]. split.
    + intros H. apply H. cbn. tauto.
    + apply make_nif_call_returns_nil_out_of_order.
Qed.

(** As long as [nif_call_evaluated] has not set the flag, the caller has
    not left the loop of lines 95 to 97, whatever wakes it. *)
Theorem make_nif_call_waits_for_the_flag (sched : list actor) (s : system) :
  run c sched (started p r [v]) = Some s ->
  return_value_set (res s) = false ->
  caller s = AtSend \/ caller s = AtLock \/ caller s = AtTest \/
  caller s = AtWait \/ caller s = Sleeping \/ caller s = Signalled.
Proof.
  intros E Hf.
  pose proof (run_consistent false sched (fun F => False_ind _ (Bool.diff_false_true F))
                             _ _ (started_consistent false) E)
    as (_ & _ & Hc & _).
  destruct (caller s); auto 7; try congruence. destruct Hc; congruence.
Qed.

(** The final states of a call completed once with [v], those in which
    neither thread can move any more: the call has returned the copy of
    [v]; or it has returned the initial nil, which takes a flag store that
    overtook the value store; or the caller sleeps on the condition
    variable although the flag is set, the value stored and the evaluator
    finished.  The second kind of final state is reached by a schedule. *)
Theorem quiescent_outcomes :
  (forall sched s,
      run c sched (started p r [v]) = Some s ->
      quiescent c s ->
      caller s = Returned (enif_make_copy (caller_env c) v) \/
      (caller s = Returned (enif_make_copy (caller_env c) kAtomNil) /\
       ~ program_order sched) \/
      (caller s = Sleeping /\ evaluator s = Idle /\ pending s = [] /\
       return_value_set (res s) = true /\
       return_value (res s) = enif_make_copy e v)) /\
  (exists sched s,
      run c sched (started p r [v]) = Some s /\ quiescent c s /\
      caller s = Returned (enif_make_copy (caller_env c) kAtomNil) /\
      return_value (res s) = enif_make_copy e v).
Proof.
  split.
  - intros sched s E Q.
    pose proof (run_consistent false sched (fun F => False_ind _ (Bool.diff_false_true F))
                               _ _ (started_consistent false) E)
      as (He & Hev & Hc & Hm & Hl).
    destruct Q as [QC QE]. cbn in QC, QE. unfold caller_step in QC.
    unfold evaluator_step, store_return_value in QE.
    destruct (in_dec actor_eq_dec Reorder sched) as [Hin | Hpo].
    + destruct s as [ra rs ml sg mb pc ev pd rr]. cbn in *.
      destruct pc; cbn in *; subst; try rewrite He in *; try discriminate.
      * destruct (return_value_set rs); discriminate.
      * right. right. destruct ev; cbn in *; try rewrite He in *; try discriminate.
        destruct pd as [|w [|w' pd]]; cbn in *; try contradiction.
        -- tauto.
        -- destruct mb; [|discriminate]. destruct Hm; congruence.
      * destruct Hc as [_ [-> | [_ ->]]]; [now left|].
        right. left. split; [reflexivity|]. intros H. exact (H Hin).
    + pose proof (run_consistent true sched (fun _ => Hpo) _ _ (started_consistent true) E)
        as (_ & _ & Hc' & _).
      destruct s as [ra rs ml sg mb pc ev pd rr]. cbn in *.
      destruct pc; cbn in *; subst; try rewrite He in *; try discriminate.
      * destruct (return_value_set rs); discriminate.
      * right. right. destruct ev; cbn in *; try rewrite He in *; try discriminate.
        destruct pd as [|w [|w' pd]]; cbn in *; try contradiction.
        -- tauto.
        -- destruct mb; [|discriminate]. destruct Hm; congruence.
      * destruct Hc' as [_ [-> | [F _]]]; [now left | discriminate F].
  - set (msg := enif_make_copy e
                  (enif_make_tuple3 (caller_env c) (fun_ c) (args c)
                     (enif_make_resource (caller_env c) CallbackNifRes_type p))).
    set (s := mkSystem p (mkRes (Some e) (Some mx) (Some cd) (enif_make_copy e v) true)
                       false 1%nat [msg]
                       (Returned (enif_make_copy (caller_env c) kAtomNil)) Idle [] true).
    exists [Caller; Evaluator; Reorder; Caller; Caller; Caller; Caller; Evaluator; Evaluator].
    exists s.
    assert (E : run c [Caller; Evaluator; Reorder; Caller; Caller; Caller; Caller;
                       Evaluator; Evaluator] (started p r [v]) = Some s) by reflexivity.
    split; [exact E|]. split; [split; reflexivity|]. split; reflexivity.
Qed.

Lemma run_app (a b : list actor) :
  forall s, run c (a ++ b) s =
            match run c a s with Some s1 => run c b s1 | None => None end.
Proof.
  induction a as [|t a IH]; intros s; cbn; [reflexivity|].
  destruct (step c t s); [apply IH | reflexivity].
Qed.

(** The call returns when the evaluator completes before the caller tests
    the flag, and when it completes while the caller sleeps. *)
Lemma make_nif_call_returns_when_completed_early :
  make_nif_call c o [v]
    [Caller; Evaluator; Evaluator; Evaluator; Evaluator; Caller; Caller; Caller; Caller]
  = Some (enif_make_copy (caller_env c) v).
Proof. reflexivity. Qed.

Lemma make_nif_call_returns_when_signalled_asleep :
  make_nif_call c o [v]
    [Caller; Caller; Caller; Caller; Evaluator; Evaluator; Evaluator; Evaluator;
     Caller; Caller; Caller; Caller]
  = Some (enif_make_copy (caller_env c) v).
Proof. reflexivity. Qed.

(** C5.  A schedule under which [make_nif_call] does not return although
    [nif_call_evaluated] has been called with [v]: the caller sends, locks
    and reads the flag as clear; the evaluator then stores the value, sets
    the flag and signals the condition variable, on which nobody waits yet;
    the caller enters [enif_cond_wait].  The flag is set and the slot holds
    the copy of [v], neither thread can move, and no continuation of the
    schedule makes the call return unless [enif_cond_wait] wakes up without
    having been signalled. *)
Theorem make_nif_call_can_miss_the_signal :
  let sched := [Caller; Caller; Caller; Evaluator; Evaluator; Evaluator; Evaluator; Caller] in
  exists s,
    run c sched (started p r [v]) = Some s /\
    mailbox s = [enif_make_copy e
                   (enif_make_tuple3 (caller_env c) (fun_ c) (args c)
                      (enif_make_resource (caller_env c) CallbackNifRes_type p))] /\
    caller s = Sleeping /\ evaluator s = Idle /\ pending s = [] /\
    return_value_set (res s) = true /\
    return_value (res s) = enif_make_copy e v /\
    signals s = 1%nat /\
    quiescent c s /\
    (forall more, signals_only more -> make_nif_call c o [v] (sched ++ more) = None) /\
    make_nif_call c o [v] (sched ++ [Wakeup; Caller; Caller; Caller; Caller])
    = Some (enif_make_copy (caller_env c) v).
Proof.
  intros sched.
  set (msg := enif_make_copy e
                (enif_make_tuple3 (caller_env c) (fun_ c) (args c)
                   (enif_make_resource (caller_env c) CallbackNifRes_type p))).
  set (s := mkSystem p (mkRes (Some e) (Some mx) (Some cd) (enif_make_copy e v) true)
                     false 1%nat [msg] Sleeping Idle [] false).
  assert (E : run c sched (started p r [v]) = Some s) by reflexivity.
  exists s. split; [exact E|].
  repeat (split; [reflexivity|]).
  split; [split; reflexivity|]. split; [|reflexivity].
  intros more Hmore. unfold make_nif_call. rewrite prepare_nif_call_succeeds.
  cbn [o enif_alloc_resource]. rewrite run_app, E.
  destruct more as [|[] more]; try reflexivity.
  exfalso. apply Hmore. now left.
Qed.

End Call.


Section CallExamples.

(** A call of [add] on [1, 2] from environment 1, completed with [3] by an
    evaluator that built the value in its own environment 3. *)
Let c : call :=
  mkCall 1%nat 9%nat (mkTerm 1%nat (Atom "add"))
         (mkTerm 1%nat (Tuple [Integer 1; Integer 2])).
Let three : ERL_NIF_TERM := mkTerm 3%nat (Integer 3).
Let asleep_then_signalled : list actor :=
  [Caller; Caller; Caller; Caller; Evaluator; Evaluator; Evaluator; Evaluator;
   Caller; Caller; Caller; Caller].

Lemma make_nif_call_returns_the_completion_witness :
  let x := mkTerm 1%nat (Integer 3) in
  x = enif_make_copy (caller_env c) three /\ same_value x three /\
  term_env x = caller_env c.
Proof.
  intros x.
  apply (proj1 (make_nif_call_returns_the_completion c 40%nat 2%nat 41%nat 42%nat three)
               asleep_then_signalled x).
  - reflexivity.
  - intros H. repeat (destruct H as [H | H]; [discriminate H|]). exact H.
Defined.

Lemma make_nif_call_waits_for_the_flag_witness :
  let s := mkSystem 40%nat
                    (mkRes (Some 2%nat) (Some 41%nat) (Some 42%nat) kAtomNil false)
                    false 0%nat
                    [mkTerm 2%nat (Tuple [Atom "add"; Tuple [Integer 1; Integer 2];
                                          ResourceRef CallbackNifRes_type 40%nat])]
                    Sleeping Idle [three] false in
  caller s = AtSend \/ caller s = AtLock \/ caller s = AtTest \/
  caller s = AtWait \/ caller s = Sleeping \/ caller s = Signalled.
Proof.
  intros s.
  apply (make_nif_call_waits_for_the_flag
           c 40%nat 2%nat 41%nat 42%nat three [Caller; Caller; Caller; Caller] s);
    reflexivity.
Defined.

Lemma quiescent_outcomes_witness :
  let s := mkSystem 40%nat
                    (mkRes (Some 2%nat) (Some 41%nat) (Some 42%nat)
                           (mkTerm 2%nat (Integer 3)) true)
                    false 1%nat
                    [mkTerm 2%nat (Tuple [Atom "add"; Tuple [Integer 1; Integer 2];
                                          ResourceRef CallbackNifRes_type 40%nat])]
                    (Returned (mkTerm 1%nat (Integer 3))) Idle [] true in
  caller s = Returned (enif_make_copy (caller_env c) three) \/
  (caller s = Sleeping /\ evaluator s = Idle /\ pending s = [] /\
   return_value_set (res s) = true /\
   return_value (res s) = enif_make_copy 2%nat three).
Proof.
  intros s.
  destruct (proj1 (quiescent_outcomes c 40%nat 2%nat 41%nat 42%nat three)
                  asleep_then_signalled s eq_refl (conj eq_refl eq_refl))
    as [H | [[H _] | H]].
  - left. exact H.
  - discriminate H.
  - right. exact H.
Defined.

(** The end-to-end scenario of the call bridge: the message that reaches
    the evaluator carries the function, the arguments and the callback
    term, all owned by the context's environment, and the call returns [3]
    in the caller's environment. *)
Lemma add_scenario :
  let o := mkAllocator (Some 40%nat) (Some 2%nat) (Some 41%nat) (Some 42%nat) in
  let r := mkRes (Some 2%nat) (Some 41%nat) (Some 42%nat) kAtomNil false in
  fst (prepare_nif_call o) = Some r /\
  option_map mailbox (run c asleep_then_signalled (started 40%nat r [three])) =
    Some [mkTerm 2%nat (Tuple [Atom "add"; Tuple [Integer 1; Integer 2];
                               ResourceRef CallbackNifRes_type 40%nat])] /\
  make_nif_call c o [three] asleep_then_signalled = Some (mkTerm 1%nat (Integer 3)).
Proof. repeat split. Qed.

End CallExamples.

(* ================================================================== *)
(** * Properties of the dtype tables *)
(* ================================================================== *)

Import Mlx Nifs Bridge.

Section DtypeTables.

(** In a map whose keys and whose values are pairwise different, looking
    a key up and looking for the first key of a value are inverse to each
    other. *)
Lemma find_first_key_of (m : string_map Dtype) :
  NoDup (map fst m) -> NoDup (map snd m) ->
  forall k d, find m k = Some d <-> first_key_of m d = Some k.
Proof.
  induction m as [|[k0 d0] m IH]; intros Hk Hd k d; cbn.
  - split; discriminate.
  - inversion Hk as [|? ? Hk0 Hk']; inversion Hd as [|? ? Hd0 Hd']; subst.
    cbn in Hk0, Hd0.
    destruct (String.eqb k0 k) eqn:E; destruct (Dtype_eq_dec d0 d) as [F|F].
    + apply String.eqb_eq in E. subst. tauto.
    + apply String.eqb_eq in E. subst. split; intros H.
      * inversion H. contradiction.
      * exfalso. apply (IH Hk' Hd' k d) in H. apply Hk0.
        clear - H. induction m as [|[k1 d1] m IHm]; [discriminate|].
        cbn in *. destruct (String.eqb k1 k) eqn:E1.
        -- apply String.eqb_eq in E1. now left.
        -- right. now apply IHm.
    + subst. apply String.eqb_neq in E. split; intros H.
      * exfalso. apply Hd0.
        clear - H. induction m as [|[k1 d1] m IHm]; [discriminate|].
        cbn in *. destruct (String.eqb k1 k).
        -- inversion H. now left.
        -- right. now apply IHm.
      * inversion H. contradiction.
    + now apply IH.
Qed.

(** The entries of [dtypes] are listed in the order of the [std::map]. *)
Lemma dtypes_keys_increasing : increasing (map fst dtypes) = true.
Proof. reflexivity. Qed.

Lemma dtypes_keys_differ : NoDup (map fst dtypes).
Proof.
  cbn. repeat (constructor; [cbn; intros H; repeat (destruct H as [H|H]; [discriminate H|]); exact H|]).
  constructor.
Qed.

Lemma dtypes_values_differ : NoDup (map snd dtypes).
Proof.
  cbn. repeat (constructor; [cbn; intros H; repeat (destruct H as [H|H]; [discriminate H|]); exact H|]).
  constructor.
Qed.

(** [string2dtype] and [dtype2string] are inverse to each other:
    [string2dtype] returns [d] for a name exactly when [dtype2string]
    yields that name for [d].  So every name the table knows comes back
    from its type, a type the table lacks has no name, and a name the
    table lacks makes [string2dtype] throw. *)
Theorem string2dtype_dtype2string (name : string) (d : Dtype) :
  string2dtype name = Returns d <-> dtype2string d = Some name.
Proof.
  unfold string2dtype, dtype2string.
  rewrite <- (find_first_key_of dtypes dtypes_keys_differ dtypes_values_differ).
  destruct (find dtypes name); split; intros H; inversion H; reflexivity.
Qed.

Lemma find_sizes (size : Dtype -> Z) (m : string_map Dtype) (name : string) :
  find (map (fun kv => (fst kv, size (snd kv))) m) name = option_map size (find m name).
Proof.
  induction m as [|[k d] m IH]; [reflexivity|].
  cbn. destruct (String.eqb k name); [reflexivity | exact IH].
Qed.

(** The two tables agree: [dtype_sizes] has an entry for a name exactly
    when [string2dtype] accepts the name, and the entry is the size of the
    type [string2dtype] returns. *)
Theorem dtype_sizes_agrees_with_dtypes (size : Dtype -> Z) (name : string) :
  find (dtype_sizes size) name =
    match string2dtype name with
    | Returns d => Some (size d)
    | _ => None
    end.
Proof.
  change (dtype_sizes size) with (map (fun kv => (fst kv, size (snd kv))) dtypes).
  rewrite find_sizes. unfold string2dtype. destruct (find dtypes name); reflexivity.
Qed.

End DtypeTables.

(* ================================================================== *)
(** * Properties of elem_count and of the size check of from_blob *)
(* ================================================================== *)

Section BlobChecks.

Lemma two_64 : 2 ^ 64 = 18446744073709551616.
Proof. reflexivity. Qed.

Lemma int_range : INT_MIN = -2147483648 /\ INT_MAX = 2147483647.
Proof. split; reflexivity. Qed.

Lemma int_mul_some (a b r : Z) :
  int_mul a b = Some r <-> r = a * b /\ INT_MIN <= a * b <= INT_MAX.
Proof.
  unfold int_mul. cbn zeta.
  destruct ((INT_MIN <=? a * b) && (a * b <=? INT_MAX))%bool eqn:E.
  - apply andb_true_iff in E. rewrite !Z.leb_le in E. split.
    + intros H. inversion H. split; [reflexivity | exact E].
    + intros [-> _]. reflexivity.
  - split; [discriminate|]. intros [_ H].
    apply andb_false_iff in E. rewrite !Z.leb_gt in E. lia.
Qed.

Lemma accumulate_product (shape : list Z) :
  forall acc r, accumulate shape acc = Some r -> r = acc * product shape.
Proof.
  induction shape as [|d shape IH]; intros acc r H; cbn in *.
  - inversion H. lia.
  - destruct (int_mul acc d) as [acc'|] eqn:E; [|discriminate].
    apply int_mul_some in E. destruct E as [-> _].
    rewrite (IH _ _ H). unfold product. lia.
Qed.

Lemma accumulate_in_range (shape : list Z) :
  forall acc r, INT_MIN <= acc <= INT_MAX ->
                accumulate shape acc = Some r -> INT_MIN <= r <= INT_MAX.
Proof.
  induction shape as [|d shape IH]; intros acc r Ha H; cbn in *.
  - inversion H. now subst.
  - destruct (int_mul acc d) as [acc'|] eqn:E; [|discriminate].
    apply int_mul_some in E. destruct E as [-> E].
    now apply (IH _ _ E H).
Qed.

Lemma product_nonneg (shape : list Z) :
  Forall (fun d => 0 <= d) shape -> 0 <= product shape.
Proof.
  induction 1 as [|d shape Hd _ IH]; cbn; [lia|]. now apply Z.mul_nonneg_nonneg.
Qed.

Lemma product_pos (shape : list Z) :
  Forall (fun d => 0 < d) shape -> 0 < product shape.
Proof.
  induction 1 as [|d shape Hd _ IH]; cbn; [lia|]. now apply Z.mul_pos_pos.
Qed.

(** No product of a prefix of positive dimensions exceeds the whole
    product, so the loop does not overflow when the result fits. *)
Lemma accumulate_defined (shape : list Z) :
  forall acc, 0 < acc -> Forall (fun d => 0 < d) shape ->
              acc * product shape <= INT_MAX ->
              accumulate shape acc = Some (acc * product shape).
Proof.
  induction shape as [|d shape IH]; intros acc Ha Hs Hm; cbn.
  - f_equal. lia.
  - inversion Hs as [|? ? Hd Hs']; subst.
    pose proof (product_pos shape Hs') as P.
    change (product (d :: shape)) with (d * product shape) in *.
    assert (Q : 0 < acc * d) by now apply Z.mul_pos_pos.
    assert (B : acc * d <= acc * (d * product shape)).
    { rewrite Z.mul_assoc. rewrite <- (Z.mul_1_r (acc * d)) at 1.
      apply Z.mul_le_mono_nonneg_l; lia. }
    assert (E : int_mul acc d = Some (acc * d)).
    { apply int_mul_some. split; [reflexivity|].
      destruct int_range as [-> _]. lia. }
    rewrite E. rewrite IH; [f_equal; fold (product shape); lia | assumption | assumption | ].
    rewrite <- Z.mul_assoc. exact Hm.
Qed.

Lemma elem_count_some (shape : list Z) (n : Z) :
  elem_count shape = Some n ->
  n = to_uint64 (product shape) /\ INT_MIN <= product shape <= INT_MAX.
Proof.
  unfold elem_count. destruct (accumulate shape 1) as [r|] eqn:E; [|discriminate].
  intros H. inversion H; subst.
  pose proof (accumulate_product shape 1 r E) as P.
  pose proof (accumulate_in_range shape 1 r ltac:(unfold INT_MIN, INT_MAX; rewrite two_31; lia) E) as R.
  replace (1 * product shape) with (product shape) in P by lia. subst r. now split.
Qed.

Lemma quotient_bound (b i n : Z) : 0 < i -> (n <= b / i <-> n * i <= b).
Proof.
  intros Hi. split; intros H.
  - pose proof (Z.mul_div_le b i Hi). nia.
  - apply Z.div_le_lower_bound; lia.
Qed.

(** The size check of [from_blob] is exact on shapes without negative
    dimensions: whenever the test of line 479 is defined, the blob is let
    through exactly when it holds at least (number of elements) times
    (item size) bytes, although the test divides and rounds down.  And the
    test is defined, with that answer, for every shape of positive
    dimensions whose number of elements fits an [int]. *)
Theorem blob_too_small_exact (blob_size item_size : Z) (shape : list Z) :
  0 < item_size ->
  Forall (fun d => 0 <= d) shape ->
  (forall b, blob_too_small blob_size item_size shape = Some b ->
             (b = false <-> product shape * item_size <= blob_size)) /\
  (Forall (fun d => 0 < d) shape -> product shape <= INT_MAX ->
   blob_too_small blob_size item_size shape
   = Some (negb (product shape * item_size <=? blob_size))).
Proof.
  intros Hi Hs.
  assert (Z0 : (item_size =? 0) = false) by (apply Z.eqb_neq; lia).
  pose proof (product_nonneg shape Hs) as P.
  assert (U : product shape <= INT_MAX -> to_uint64 (product shape) = product shape).
  { intros R. unfold to_uint64. apply Z.mod_small.
    destruct int_range as [_ E]. rewrite E in R. rewrite two_64. lia. }
  split.
  - intros b H. unfold blob_too_small in H. rewrite Z0 in H.
    destruct (elem_count shape) as [n|] eqn:E; [|discriminate].
    apply elem_count_some in E. destruct E as [-> R].
    rewrite U in H by lia.
    inversion H; subst b. rewrite Z.ltb_ge. now apply quotient_bound.
  - intros Hp R. unfold blob_too_small, elem_count. rewrite Z0.
    rewrite (accumulate_defined shape 1) by (try assumption; lia).
    replace (1 * product shape) with (product shape) by lia.
    rewrite U by assumption. f_equal.
    destruct (product shape * item_size <=? blob_size) eqn:L; cbn.
    + apply Z.leb_le in L. apply Z.ltb_ge. now apply quotient_bound.
    + apply Z.leb_gt in L. apply Z.ltb_lt. apply Z.nle_gt. intros H.
      apply quotient_bound in H; lia.
Qed.

(** The size check of [from_blob] at its edges, for a blob shorter than
    2^63 bytes: the empty shape asks for one element; a shape with a zero
    dimension lets every blob through; a shape whose product is negative
    is refused whatever the blob holds, because the product is compared as
    an unsigned number; a product beyond [INT_MAX] overflows the [int]
    accumulator of [elem_count]; and two negative dimensions are not told
    from their absolute values. *)
Theorem blob_too_small_edges (blob_size item_size : Z) :
  0 <= blob_size < 2 ^ 63 -> 0 < item_size ->
  blob_too_small blob_size item_size [] = Some (blob_size <? item_size) /\
  (forall shape b, In 0 shape ->
                   blob_too_small blob_size item_size shape = Some b -> b = false) /\
  (forall shape b, product shape < 0 ->
                   blob_too_small blob_size item_size shape = Some b -> b = true) /\
  (forall shape, Forall (fun d => 0 <= d) shape -> INT_MAX < product shape ->
                 blob_too_small blob_size item_size shape = None) /\
  (forall d1 d2, - INT_MAX <= d1 <= INT_MAX ->
                 blob_too_small blob_size item_size [- d1; - d2] =
                 blob_too_small blob_size item_size [d1; d2]).
Proof.
  intros Hb Hi.
  assert (Z0 : (item_size =? 0) = false) by (apply Z.eqb_neq; lia).
  split; [|split; [|split; [|split]]].
  - unfold blob_too_small. rewrite Z0. cbn. f_equal.
    destruct (blob_size <? item_size) eqn:L.
    + apply Z.ltb_lt in L. apply Z.ltb_lt. rewrite Z.div_small; lia.
    + apply Z.ltb_ge in L. apply Z.ltb_ge. apply quotient_bound; lia.
  - intros shape b H0 H. unfold blob_too_small in H. rewrite Z0 in H.
    destruct (elem_count shape) as [n|] eqn:E; [|discriminate].
    apply elem_count_some in E. destruct E as [-> _].
    assert (P : product shape = 0).
    { clear - H0. induction shape as [|d shape IH]; [contradiction|].
      change (product (d :: shape)) with (d * product shape).
      destruct H0 as [-> | H0]; [lia|]. rewrite (IH H0). lia. }
    rewrite P in H. cbn in H. inversion H. apply Z.ltb_ge.
    apply Z.div_pos; lia.
  - intros shape b Hneg H. unfold blob_too_small in H. rewrite Z0 in H.
    destruct (elem_count shape) as [n|] eqn:E; [|discriminate].
    apply elem_count_some in E. destruct E as [-> R].
    inversion H. apply Z.ltb_lt.
    unfold to_uint64. rewrite two_64.
    replace (product shape) with ((product shape + 18446744073709551616) + (-1) * 18446744073709551616) by lia.
    rewrite Z.mod_add by lia.
    unfold INT_MIN in R. rewrite two_31 in R.
    rewrite Z.mod_small by lia.
    assert (blob_size / item_size <= blob_size).
    { apply Z.div_le_upper_bound; [lia|]. nia. }
    change (2 ^ 63) with 9223372036854775808 in Hb. lia.
  - intros shape Hs Hbig. unfold blob_too_small. rewrite Z0.
    destruct (elem_count shape) as [n|] eqn:E; [|reflexivity].
    apply elem_count_some in E. lia.
  - intros d1 d2 Hd. unfold blob_too_small. rewrite Z0.
    unfold elem_count. cbn [accumulate].
    unfold int_mul. cbn zeta.
    replace (1 * - d1) with (- d1) by lia. replace (1 * d1) with d1 by lia.
    assert (L1 : ((INT_MIN <=? - d1) && (- d1 <=? INT_MAX))%bool = true).
    { apply andb_true_iff. rewrite !Z.leb_le. unfold INT_MIN, INT_MAX in *.
      rewrite two_31 in *. lia. }
    assert (L2 : ((INT_MIN <=? d1) && (d1 <=? INT_MAX))%bool = true).
    { apply andb_true_iff. rewrite !Z.leb_le. unfold INT_MIN, INT_MAX in *.
      rewrite two_31 in *. lia. }
    rewrite L1, L2. replace (- d1 * - d2) with (d1 * d2) by lia. reflexivity.
Qed.

End BlobChecks.

(* ================================================================== *)
(** * Properties of the copy of to_blob *)
(* ================================================================== *)

Section ToBlob.

(** [to_blob] with a limit that stays inside the array copies exactly the
    first [limit * itemsize] bytes of the array's buffer; without a limit,
    or with the limit that covers the whole array, it copies all of it. *)
Theorem to_blob_bytes_within (data : list Byte.byte) (item_size limit : Z) :
  0 <= limit -> 0 <= item_size ->
  limit * item_size <= Z.of_nat (List.length data) < 2 ^ 64 ->
  to_blob_bytes data item_size (Some limit)
  = Some (firstn (Z.to_nat (limit * item_size)) data) /\
  Z.of_nat (List.length (firstn (Z.to_nat (limit * item_size)) data)) = limit * item_size /\
  to_blob_bytes data item_size None = Some data /\
  (limit * item_size = Z.of_nat (List.length data) ->
   to_blob_bytes data item_size (Some limit) = Some data).
Proof.
  intros Hl Hi Hb.
  assert (P : 0 <= limit * item_size) by now apply Z.mul_nonneg_nonneg.
  assert (E : to_blob_byte_size (Z.of_nat (List.length data)) item_size (Some limit)
              = limit * item_size).
  { cbn. unfold to_uint64. apply Z.mod_small. lia. }
  assert (E1 : to_blob_bytes data item_size (Some limit)
               = Some (firstn (Z.to_nat (limit * item_size)) data)).
  { unfold to_blob_bytes, memcpy_from. rewrite E.
    destruct (limit * item_size <=? Z.of_nat (List.length data)) eqn:L; [reflexivity|].
    apply Z.leb_gt in L. lia. }
  assert (E2 : to_blob_bytes data item_size None = Some data).
  { unfold to_blob_bytes, memcpy_from. cbn [to_blob_byte_size].
    rewrite Z.leb_refl, Nat2Z.id. now rewrite firstn_all. }
  repeat split; try assumption.
  - rewrite length_firstn. lia.
  - intros H. rewrite E1, H, Nat2Z.id. now rewrite firstn_all.
Qed.

(** [to_blob] does not compare the limit with the size of the array.  For
    an array of fewer than 2^63 bytes, a limit whose product with the item
    size lies above the size of the array and below 2^64, or lies between
    -2^63 and 0 (it then wraps around in [size_t] to at least 2^63), makes
    the byte count handed to [std::memcpy] larger than the array, so that
    the copy would read past its end.  Products outside these two ranges
    wrap around to a byte count that may be within the array again; they
    are not covered here. *)
Theorem to_blob_bytes_beyond (data : list Byte.byte) (item_size limit : Z) :
  Z.of_nat (List.length data) < 2 ^ 63 ->
  (Z.of_nat (List.length data) < limit * item_size < 2 ^ 64 \/
   - 2 ^ 63 <= limit * item_size < 0) ->
  to_blob_bytes data item_size (Some limit) = None.
Proof.
  intros Hd H. unfold to_blob_bytes, memcpy_from. cbn [to_blob_byte_size].
  unfold to_uint64. rewrite two_64 in *. change (2 ^ 63) with 9223372036854775808 in *.
  destruct H as [H | H].
  - rewrite Z.mod_small by lia.
    destruct (limit * item_size <=? Z.of_nat (List.length data)) eqn:L; [|reflexivity].
    apply Z.leb_le in L. lia.
  - replace (limit * item_size)
      with ((limit * item_size + 18446744073709551616) + (-1) * 18446744073709551616) by lia.
    rewrite Z.mod_add by lia. rewrite Z.mod_small by lia.
    destruct (limit * item_size + 18446744073709551616 <=? Z.of_nat (List.length data)) eqn:L;
      [|reflexivity].
    apply Z.leb_le in L. lia.
Qed.

End ToBlob.

(* ================================================================== *)
(** * Properties of the list arguments *)
(* ================================================================== *)

Section ShapeLists.

Lemma enif_get_int_some (a : arg) (z : Z) :
  enif_get_int a = Some z <-> a = Plain (Integer z) /\ fits_int z.
Proof.
  unfold enif_get_int, fits_int. destruct a as [t| | |]; try (split; [discriminate | intros [H _]; discriminate H]).
  destruct t; try (split; [discriminate | intros [H _]; discriminate H]).
  destruct ((INT_MIN <=? z0) && (z0 <=? INT_MAX))%bool eqn:E.
  - apply andb_true_iff in E. rewrite !Z.leb_le in E. split.
    + intros H. inversion H; subst. now split.
    + intros [H _]. inversion H. reflexivity.
  - apply andb_false_iff in E. rewrite !Z.leb_gt in E. split; [discriminate|].
    intros [H R]. inversion H; subst. lia.
Qed.

Lemma int_list_length (l : list Z) :
  enif_get_list_length (int_list l) = Some (List.length l).
Proof. induction l as [|z l IH]; cbn; [reflexivity | now rewrite IH]. Qed.

(** The loop yields what it had read, followed by the integers of the
    list, exactly when every element of the list is an [int]. *)
Lemma read_ints_some (n : nat) :
  forall a read l,
    enif_get_list_length a = Some n ->
    (read_ints n a read = Some l <->
     exists l', a = int_list l' /\ Forall fits_int l' /\ l = read ++ l').
Proof.
  induction n as [|n IH]; intros a read l Hn.
  - destruct a as [t|d| |h t]; cbn in Hn; try discriminate.
    + cbn. split.
      * intros H. inversion H. exists []. repeat split; [constructor | now rewrite app_nil_r].
      * intros (l' & Ha & _ & ->). destruct l'; [|discriminate]. now rewrite app_nil_r.
    + destruct (enif_get_list_length t); discriminate.
  - destruct a as [t|d| |h t]; cbn in Hn; try discriminate.
    destruct (enif_get_list_length t) as [k|] eqn:Ek; [|discriminate].
    inversion Hn; subst k. cbn [read_ints enif_get_list_cell].
    destruct (enif_get_int h) as [dim|] eqn:Eh.
    + apply enif_get_int_some in Eh. destruct Eh as [-> Hf].
      rewrite (IH t (read ++ [dim]) l Ek). split.
      * intros (l' & -> & Hl' & ->). exists (dim :: l').
        repeat split; [now constructor | now rewrite <- app_assoc].
      * intros (l' & Ha & Hl' & ->). destruct l' as [|z l']; [discriminate|].
        cbn in Ha. inversion Ha; subst. inversion Hl'; subst.
        exists l'. repeat split; [assumption | now rewrite <- app_assoc].
    + split; [discriminate|]. intros (l' & Ha & Hl' & _).
      destruct l' as [|z l']; [discriminate|]. cbn in Ha. inversion Ha; subst.
      inversion Hl'; subst.
      assert (enif_get_int (Plain (Integer z)) = Some z) by (apply enif_get_int_some; now split).
      congruence.
Qed.

(** The argument decoding shared by [make_zeros], [make_ones] and [sum]
    accepts exactly the proper lists of integers that fit a C [int], and
    yields their elements in order: an improper list, a list with a float,
    an atom or a nested list in it, or with an integer beyond 32 bits, is
    refused. *)
Theorem get_int_list_int_list (a : arg) (l : list Z) :
  get_int_list a = Some l <-> a = int_list l /\ Forall fits_int l.
Proof.
  unfold get_int_list. destruct (enif_get_list_length a) as [n|] eqn:E.
  - rewrite (read_ints_some n a [] l E). split.
    + intros (l' & Ha & Hl & ->). now split.
    + intros [Ha Hl]. exists l. now repeat split.
  - split; [discriminate|]. intros [-> _]. rewrite int_list_length in E. discriminate.
Qed.

End ShapeLists.

(* ================================================================== *)
(** * Properties of the NIFs that take an array *)
(* ================================================================== *)

Section Pair.

Variable env : ErlNifEnv.
Variable tok : ERL_NIF_TERM.
Variable p : pointer.
Hypothesis resolves : enif_get_resource env tok ARRAY_TYPE = Some p.

Lemma wrap_succ_zero (c : Z) :
  INT_MIN <= c <= INT_MAX -> (wrap_int (c + 1) = 0 <-> c = -1).
Proof.
  intros H. unfold INT_MIN, INT_MAX in H. rewrite two_31 in H.
  destruct (Z.eq_dec c 2147483647) as [-> | N]; [split; [vm_compute; discriminate | lia]|].
  rewrite wrap_int_in_range by (unfold INT_MIN, INT_MAX; rewrite two_31; lia). lia.
Qed.

Lemma wrap_succ_pred (c : Z) :
  INT_MIN <= c <= INT_MAX -> wrap_int (wrap_int (c + 1) - 1) = c.
Proof.
  intros H. replace (wrap_int (c + 1) - 1) with (wrap_int (c + 1) + (-1)) by lia.
  rewrite wrap_int_add. replace (c + 1 + -1) with c by lia.
  now apply wrap_int_in_range.
Qed.

(** [ARRAY_PARAM] and the destructor at the end of the scope, around a
    body that leaves the block alone: the block is as before, unless the
    counter read -1, when the increment takes it to 0 and the decrement
    that follows runs the array's destructor. *)
Lemma with_reference_block {X : Type}
      (body : ArrayP -> memory -> X * memory) (m : memory) :
  INT_MIN <= refcount (m p) <= INT_MAX ->
  (forall a m1, snd (body a m1) p = m1 p) ->
  snd (with_reference env tok body m) p =
    if refcount (m p) =? -1
    then mkResource (object (m p)) (S (destructor_runs (m p))) (-1) (deleted (m p))
    else m p.
Proof.
  intros Hr Hb. unfold with_reference.
  destruct (Z.eq_dec (refcount (m p)) 0) as [Z0 | NZ].
  - rewrite (ArrayP_ctor_dead env tok p m resolves Z0). cbn. now rewrite Z0.
  - rewrite (ArrayP_ctor_live env tok p m resolves NZ).
    cbn [is_valid reference_to ptr].
    specialize (Hb (reference_to p) (store m p (pre_increment (m p)))).
    destruct (body (reference_to p) (store m p (pre_increment (m p)))) as [x m2].
    cbn [snd] in *. rewrite ArrayP_dtor_block, Hb, store_same.
    cbn [pre_increment set_refcount refcount].
    destruct (m p) as [o d c f] eqn:E. cbn [refcount object destructor_runs deleted] in *.
    destruct (c =? -1) eqn:C.
    + apply Z.eqb_eq in C. subst c. reflexivity.
    + apply Z.eqb_neq in C. destruct (wrap_int (c + 1) =? 0) eqn:W.
      * apply Z.eqb_eq in W. apply wrap_succ_zero in W; [contradiction | assumption].
      * cbn. now rewrite wrap_succ_pred.
Qed.

End Pair.

Section ReadingNifs.

Variable lib : library.
Variable env : ErlNifEnv.
Variable tok : ERL_NIF_TERM.

Lemma publish_frame (alloc : option pointer) (a : array) (m : memory) (p : pointer) :
  alloc <> Some p -> snd (publish env alloc a m) p = m p.
Proof.
  intros H. unfold publish. destruct alloc as [r|]; [|reflexivity].
  cbn [snd]. apply store_other. congruence.
Qed.

Lemma publish_or_catch_all_frame (alloc : option pointer) (r : outcome array)
      (m : memory) (p : pointer) :
  alloc <> Some p -> snd (publish_or_catch_all env alloc r m) p = m p.
Proof.
  intros H. destruct r; cbn; try reflexivity. now apply publish_frame.
Qed.

Lemma publish_or_catch_std_frame (alloc : option pointer) (r : outcome array)
      (m : memory) (p : pointer) :
  alloc <> Some p -> snd (publish_or_catch_std env alloc r m) p = m p.
Proof.
  intros H. destruct r; cbn; try reflexivity.
  pose proof (publish_frame alloc a m p H) as F.
  destruct (publish env alloc a m). exact F.
Qed.

(** [scalar_type], [shape], [sum] and [to_type] give back the reference
    they take: whatever the other arguments are, whether the library
    throws and whether the allocation of the result fails, the block of
    the array they were called on is afterwards as it was before, counter
    and flag included.  The one exception is a counter that reads -1: the
    call takes it to 0 and back, and runs the array's destructor on the
    way. *)
Theorem reading_nifs_restore_the_handle
        (p : pointer) (argv1 argv2 : arg) (alloc : option pointer) (m : memory) :
  enif_get_resource env tok ARRAY_TYPE = Some p ->
  INT_MIN <= refcount (m p) <= INT_MAX ->
  alloc <> Some p ->
  let after :=
    if refcount (m p) =? -1
    then mkResource (object (m p)) (S (destructor_runs (m p))) (-1) (deleted (m p))
    else m p in
  snd (scalar_type lib env tok m) p = after /\
  snd (shape lib env tok m) p = after /\
  snd (sum lib env tok argv1 argv2 alloc m) p = after /\
  snd (to_type lib env tok argv1 alloc m) p = after.
Proof.
  intros Hres Hr Ha after. subst after.
  repeat split;
    (apply (with_reference_block env tok p Hres); [assumption|]);
    intros a m1; cbn beta.
  - destruct (deref a m1); [destruct (dtype2string _)|]; reflexivity.
  - destruct (deref a m1); reflexivity.
  - destruct (deref a m1); [|reflexivity].
    destruct (get_int_list argv1); [|reflexivity].
    destruct (enif_get_int argv2); [|reflexivity].
    now apply publish_or_catch_all_frame.
  - destruct (deref a m1); [|reflexivity].
    destruct (enif_get_atom argv1 32); [|reflexivity].
    destruct (string2dtype s); try reflexivity.
    now apply publish_or_catch_std_frame.
Qed.

(** [scalar_type], [shape], [sum] and [to_type] refuse a token that is not
    an array resource, and one whose counter reads 0, before they look at
    any other argument: they return the error of the [ArrayP] and leave
    the memory as it is. *)
Theorem reading_nifs_refuse_a_dead_handle
        (argv1 argv2 : arg) (alloc : option pointer) (m : memory) :
  let refusal :=
    match enif_get_resource env tok ARRAY_TYPE with
    | None => Some (Invalid env)
    | Some p => if refcount (m p) =? 0 then Some (Deallocated env) else None
    end in
  match refusal with
  | Some e =>
      scalar_type lib env tok m = (inl e, m) /\
      shape lib env tok m = (inl e, m) /\
      sum lib env tok argv1 argv2 alloc m = (inl e, m) /\
      to_type lib env tok argv1 alloc m = (inl e, m)
  | None => True
  end.
Proof.
  cbn zeta. unfold scalar_type, shape, sum, to_type, with_reference, ArrayP_ctor, load.
  destruct (enif_get_resource env tok ARRAY_TYPE) as [p|]; [|now repeat split].
  destruct (refcount (m p) =? 0); [now repeat split | exact I].
Qed.

End ReadingNifs.

Section Types.

Variable lib : library.
Variable env : ErlNifEnv.
Variable tok : ERL_NIF_TERM.
Variable p : pointer.
Hypothesis resolves : enif_get_resource env tok ARRAY_TYPE = Some p.

(** [to_type] on a live array with a type argument that names no entry of
    [dtypes]: an argument that is no atom, or an atom of 32 characters or
    more, is a bad argument; any other name comes back in the message
    [Unknown dtype: name].  Neither the library nor the allocator is
    reached. *)
Theorem to_type_rejects_unknown_types (argv1 : arg) (alloc : option pointer) (m : memory) :
  refcount (m p) <> 0 ->
  (forall name d, enif_get_atom argv1 32 = Some name -> dtype2string d <> Some name) ->
  fst (to_type lib env tok argv1 alloc m)
  = inr (Some (match enif_get_atom argv1 32 with
               | Some name => error_string env ("Unknown dtype: " ++ name)
               | None => enif_make_badarg env
               end)) /\
  (forall lib' alloc', to_type lib' env tok argv1 alloc' m = to_type lib env tok argv1 alloc m).
Proof.
  intros Hc Hu.
  assert (E : forall l al, to_type l env tok argv1 al m
              = (inr (Some (match enif_get_atom argv1 32 with
                            | Some name => error_string env ("Unknown dtype: " ++ name)
                            | None => enif_make_badarg env
                            end)),
                 ArrayP_dtor (reference_to p) (store m p (pre_increment (m p))))).
  { intros l al. unfold to_type, with_reference.
    rewrite (ArrayP_ctor_live env tok p m resolves Hc).
    cbn [is_valid reference_to ptr deref data].
    destruct (enif_get_atom argv1 32) as [name|] eqn:Ea; [|reflexivity].
    unfold string2dtype. destruct (find dtypes name) as [d|] eqn:Ef; [|reflexivity].
    exfalso. apply (Hu name d eq_refl).
    apply (find_first_key_of dtypes dtypes_keys_differ dtypes_values_differ). exact Ef. }
  split; [now rewrite E|]. intros lib' alloc'. now rewrite !E.
Qed.

(** [scalar_type] on a live array answers with the name under which
    [string2dtype] gives the array's type back; it answers [Could not
    determine array type.] exactly for the types no name stands for. *)
Theorem scalar_type_names_the_dtype (m : memory) :
  refcount (m p) <> 0 ->
  match dtype2string (dtype lib (object (m p))) with
  | Some name =>
      fst (scalar_type lib env tok m) = inr (nx_nif_ok env (enif_make_atom env name)) /\
      string2dtype name = Returns (dtype lib (object (m p)))
  | None =>
      fst (scalar_type lib env tok m)
      = inr (nx_nif_error env "Could not determine array type.") /\
      forall name, string2dtype name <> Returns (dtype lib (object (m p)))
  end.
Proof.
  intros Hc. unfold scalar_type, with_reference.
  rewrite (ArrayP_ctor_live env tok p m resolves Hc).
  cbn [is_valid reference_to ptr deref data]. rewrite store_same.
  cbn [pre_increment set_refcount object].
  destruct (dtype2string (dtype lib (object (m p)))) as [name|] eqn:E.
  - split; [reflexivity|]. unfold string2dtype.
    apply (find_first_key_of dtypes dtypes_keys_differ dtypes_values_differ) in E.
    now rewrite E.
  - split; [reflexivity|]. intros name H. unfold string2dtype in H.
    destruct (find dtypes name) as [d|] eqn:F; [|discriminate]. inversion H; subst.
    apply (find_first_key_of dtypes dtypes_keys_differ dtypes_values_differ) in F.
    unfold dtype2string in E. congruence.
Qed.

End Types.

(* ================================================================== *)
(** * Properties of the NIFs that build an array *)
(* ================================================================== *)

Section Building.

Variable lib : library.
Variable env : ErlNifEnv.

Lemma publish_published (alloc : option pointer) (a : array) (m : memory) :
  published (fst (publish env alloc a m)) alloc m (snd (publish env alloc a m)).
Proof.
  unfold publish. destruct alloc as [r|]; [|reflexivity].
  unfold published. cbn [fst snd token_of term_of enif_make_resource term_env].
  exists r, a. repeat split.
  intros env'.
  rewrite (ArrayP_ctor_live env' _ r); [| reflexivity | rewrite store_same; discriminate].
  now rewrite store_same.
Qed.

Lemma publish_or_catch_all_published (alloc : option pointer) (r : outcome array) (m : memory) :
  published (fst (publish_or_catch_all env alloc r m)) alloc m
            (snd (publish_or_catch_all env alloc r m)).
Proof. destruct r; try reflexivity. apply publish_published. Qed.

(** [make_zeros], [make_ones] and [scalar_tensor] change the memory only
    when they answer [{ok, Term}]: then the one block they wrote is the one
    the allocator gave, it holds the array with counter 1 and a clear
    flag, and [Term] can be turned into a valid [ArrayP] at once.  On a bad
    argument, an exception of the library or a failed allocation the
    memory is as before, also when an exception that is no
    [std::exception] leaves [scalar_tensor]. *)
Theorem building_nifs_publish_or_leave_memory
        (argv : list arg) (alloc : option pointer) (m : memory) :
  published (fst (make_zeros lib env argv alloc m)) alloc m
            (snd (make_zeros lib env argv alloc m)) /\
  published (fst (make_ones lib env argv alloc m)) alloc m
            (snd (make_ones lib env argv alloc m)) /\
  match fst (scalar_tensor lib env argv alloc m) with
  | Some t => published t alloc m (snd (scalar_tensor lib env argv alloc m))
  | None => snd (scalar_tensor lib env argv alloc m) = m
  end.
Proof.
  split; [|split].
  - unfold make_zeros, make_filled. destruct argv as [|a0 [|a1 rest]]; try reflexivity.
    destruct (get_int_list a0); [|reflexivity]. apply publish_or_catch_all_published.
  - unfold make_ones, make_filled. destruct argv as [|a0 [|a1 rest]]; try reflexivity.
    destruct (get_int_list a0); [|reflexivity]. apply publish_or_catch_all_published.
  - unfold scalar_tensor. destruct argv as [|a0 [|a1 [|a2 rest]]]; try reflexivity.
    destruct (enif_get_double a0) as [value|]; [|reflexivity].
    destruct (enif_get_atom a1 32) as [type_str|]; [|reflexivity].
    destruct (string2dtype type_str) as [dt| |]; try reflexivity.
    unfold publish_or_catch_std.
    destruct (make_scalar_tensor lib value dt) as [a| |]; try reflexivity.
    pose proof (publish_published alloc a m) as P.
    destruct (publish env alloc a m). exact P.
Qed.

(** The argument checks of the building NIFs.  [make_zeros] and
    [make_ones] answer badarg for any number of arguments but one and for
    an argument that is not a list of [int]s, and hand every list of
    [int]s to the library with the type [float32].  [scalar_tensor] answers
    badarg for any number of arguments but two, for an integer in place of
    the float, and for a type atom of 32 characters or more. *)
Theorem building_nifs_reject_bad_arguments
        (build : list Z -> Dtype -> outcome array) (alloc : option pointer) (m : memory) :
  (forall argv, List.length argv <> 1%nat ->
                make_filled build env argv alloc m = (enif_make_badarg env, m)) /\
  (forall a, (forall l, a = int_list l -> ~ Forall fits_int l) ->
             make_filled build env [a] alloc m = (enif_make_badarg env, m)) /\
  (forall l, Forall fits_int l ->
             make_filled build env [int_list l] alloc m
             = publish_or_catch_all env alloc (build l float32) m) /\
  (forall argv, List.length argv <> 2%nat ->
                scalar_tensor lib env argv alloc m = (Some (enif_make_badarg env), m)) /\
  (forall z a, scalar_tensor lib env [Plain (Integer z); a] alloc m
               = (Some (enif_make_badarg env), m)) /\
  (forall d name, (32 <= String.length name)%nat ->
                  scalar_tensor lib env [Float d; Plain (Atom name)] alloc m
                  = (Some (enif_make_badarg env), m)).
Proof.
  split; [|split; [|split; [|split; [|split]]]].
  - intros argv H. unfold make_filled. destruct argv as [|a0 [|a1 rest]]; cbn in H; try reflexivity.
    contradiction.
  - intros a H. unfold make_filled. destruct (get_int_list a) as [l|] eqn:E; [|reflexivity].
    exfalso. unfold get_int_list in E.
    destruct (enif_get_list_length a) as [n|] eqn:En; [|discriminate].
    apply (read_ints_some n a [] l En) in E. destruct E as (l' & Ha & Hl & _).
    exact (H l' Ha Hl).
  - intros l H. unfold make_filled.
    assert (E : get_int_list (int_list l) = Some l).
    { unfold get_int_list. rewrite int_list_length.
      apply (read_ints_some (List.length l) (int_list l) [] l (int_list_length l)).
      exists l. now repeat split. }
    now rewrite E.
  - intros argv H. unfold scalar_tensor.
    destruct argv as [|a0 [|a1 [|a2 rest]]]; cbn in H; try reflexivity. contradiction.
  - reflexivity.
  - intros d name Hn. unfold scalar_tensor. cbn [enif_get_double enif_get_atom].
    destruct (Nat.ltb (String.length name) 32) eqn:L; [|reflexivity].
    apply Nat.ltb_lt in L. lia.
Qed.

End Building.

Section FromBlob.

Variable lib : library.
Variable env : ErlNifEnv.

(** [from_blob] guards the library: for a type of the table, a shape
    without negative dimensions and a product [n] that [elem_count] forms
    without overflow, a blob of fewer than [n] times (item size) bytes is
    answered with [Binary size is too small for the requested shape]
    without the library being called, and every other blob is handed to
    it, whose outcome decides the answer. *)
Theorem from_blob_guards_the_library
        (blob : list Byte.byte) (shape : list Z) (type_atom : string) (type : Dtype)
        (item_size n : Z) (alloc : option pointer) (m : memory) :
  find (dtype_sizes (size lib)) type_atom = Some item_size ->
  0 < item_size ->
  Forall (fun d => 0 <= d) shape ->
  accumulate shape 1 = Some n ->
  n = product shape /\
  (Z.of_nat (List.length blob) < n * item_size ->
   forall lib', size lib' = size lib ->
     from_blob lib' env blob shape type_atom type alloc m
     = Some (nx_nif_error env "Binary size is too small for the requested shape", m)) /\
  (n * item_size <= Z.of_nat (List.length blob) ->
   from_blob lib env blob shape type_atom type alloc m
   = Some (match array_from_data lib blob shape type with
           | Returns a => (nx_nif_ok env (fst (create_array_resource env alloc a m)),
                           snd (create_array_resource env alloc a m))
           | Throws what => (nx_nif_error env what, m)
           | ThrowsUnknown =>
               (nx_nif_error env "Unknown error creating array from binary data", m)
           end)).
Proof.
  intros Hf Hi Hs Ha.
  pose proof (accumulate_product shape 1 n Ha) as P.
  replace (1 * product shape) with (product shape) in P by lia.
  pose proof (accumulate_in_range shape 1 n
                ltac:(unfold INT_MIN, INT_MAX; rewrite two_31; lia) Ha) as R.
  pose proof (product_nonneg shape Hs) as N.
  assert (U : to_uint64 n = n).
  { unfold to_uint64. apply Z.mod_small. unfold INT_MAX in R. rewrite two_31 in R.
    rewrite two_64. lia. }
  assert (Z0 : (item_size =? 0) = false) by (apply Z.eqb_neq; lia).
  split; [exact P|]. split.
  - intros Hsmall lib' Hl. unfold from_blob, blob_too_small, elem_count.
    rewrite Hl, Hf, Z0, Ha, U.
    assert (L : (Z.of_nat (List.length blob) / item_size <? n) = true).
    { apply Z.ltb_lt. apply Z.nle_gt. intros H. apply quotient_bound in H; lia. }
    now rewrite L.
  - intros Hok. unfold from_blob, blob_too_small, elem_count.
    rewrite Hf, Z0, Ha, U.
    assert (L : (Z.of_nat (List.length blob) / item_size <? n) = false).
    { apply Z.ltb_ge. apply quotient_bound; lia. }
    rewrite L. destruct (array_from_data lib blob shape type); try reflexivity.
    destruct (create_array_resource env alloc a m). reflexivity.
Qed.

End FromBlob.

(* ================================================================== *)
(** * Properties of the teardown and of the load of the call bridge *)
(* ================================================================== *)

Section Teardown.

(** [destruct_nif_call_res] gives back exactly the parts the context still
    holds, the condition variable first, then the mutex, then the
    environment; it clears the three pointers and keeps the return value
    and the flag; run again on what it leaves, it gives nothing back. *)
Theorem destruct_nif_call_res_once (r : CallbackNifRes) :
  let r' := fst (destruct_nif_call_res r) in
  let log := snd (destruct_nif_call_res r) in
  msg_env r' = None /\ mtx r' = None /\ cond r' = None /\
  return_value r' = return_value r /\ return_value_set r' = return_value_set r /\
  log = (match cond r with Some _ => [GivenBack TheCond] | None => [] end)
        ++ (match mtx r with Some _ => [GivenBack TheMutex] | None => [] end)
        ++ (match msg_env r with Some _ => [GivenBack TheEnv] | None => [] end) /\
  destruct_nif_call_res r' = (r', []).
Proof.
  destruct r as [[e|] [mx|] [cd|] v b]; cbn; repeat split.
Qed.


End Teardown.

Section Onload.

Variable env : ErlNifEnv.

Lemma onloads_when_loaded (opens : list (option ErlNifResourceType)) (st : statics) :
  loaded st = true ->
  onloads env opens st = (repeat 0 (List.length opens), st).
Proof.
  intros H. induction opens as [|o opens IH]; [reflexivity|].
  cbn [onloads]. unfold nif_call_onload. rewrite H, IH. reflexivity.
Qed.

(** However often [nif_call_onload] runs and however often
    [enif_open_resource_type] fails, the resource type is opened with
    success at most once: the loads return -1 until the first success and
    0 from then on, the statics are those the first success wrote, and
    before it they are untouched. *)
Theorem nif_call_onload_opens_once (opens : list (option ErlNifResourceType)) :
  let results := fst (onloads env opens unloaded) in
  let st := snd (onloads env opens unloaded) in
  results = load_results opens /\
  st = match first_opened opens with
       | Some rt => mkStatics true (Some rt) (Some (enif_make_atom env "nil"))
                              (Some (enif_make_atom env "enomem")) 1%nat
       | None => unloaded
       end.
Proof.
  induction opens as [|[rt|] opens IH].
  - cbn. now split.
  - cbn zeta. cbn [onloads]. unfold nif_call_onload. cbn.
    rewrite !onloads_when_loaded by reflexivity. cbn. now split.
  - cbn zeta in *. cbn [onloads]. unfold nif_call_onload. cbn [loaded unloaded].
    fold unloaded.
    destruct (onloads env opens unloaded) as [rs st] eqn:E. cbn [fst snd] in *.
    destruct IH as [-> ->]. now split.
Qed.

End Onload.

(* ================================================================== *)
(** * Properties of a call completed any number of times *)
(* ================================================================== *)

Section AnyCompletions.

Variable c : call.
Variable p : pointer.
Variable e : ErlNifEnv.
Variables mx cd : pointer.
Variable all : list ERL_NIF_TERM.

Let o : allocator := mkAllocator (Some p) (Some e) (Some mx) (Some cd).
Let r : CallbackNifRes := mkRes (Some e) (Some mx) (Some cd) kAtomNil false.

(** [supplied] holds at the start and is kept by every statement of
    either thread, by a spurious wake-up and, out of program order, by the
    flag store that overtakes the value store. *)
Lemma started_supplied (po : bool) : supplied po c e p all (started p r all).
Proof.
  unfold supplied. cbn. repeat split; auto using incl_refl.
  intros _ [H | H]; discriminate.
Qed.

Lemma caller_step_supplied (po : bool) (s s' : system) :
  supplied po c e p all s -> caller_step c s = Some s' -> supplied po c e p all s'.
Proof.
  intros (He & Hp & Hi & Hw & Hn & Hv & Hc & Hm & Hl & Hr) Hs. unfold caller_step in Hs.
  destruct s as [ra rs ml sg mb pc ev pd rr]. cbn in *. subst ra.
  destruct pc; cbn in *; step_cases;
    unfold supplied; cbn; repeat split; auto; try congruence.
  - intros Hpo [H | H]; [congruence|]. apply Hv; [assumption | now right].
  - destruct Hn as [Hn | (w & Hin & Hrv)].
    + destruct po.
      * destruct (Hv eq_refl (or_introl Hc)) as (w & Hin & Hrv).
        left. exists w. split; [assumption|]. now rewrite Hrv.
      * right. split; [reflexivity|]. now rewrite Hn.
    + left. exists w. split; [assumption|]. now rewrite Hrv.
Qed.

Lemma evaluator_step_supplied (po : bool) (s s' : system) :
  supplied po c e p all s -> evaluator_step s = Some s' -> supplied po c e p all s'.
Proof.
  intros (He & Hp & Hi & Hw & Hn & Hv & Hc & Hm & Hl & Hr) Hs.
  unfold evaluator_step, store_return_value in Hs.
  destruct s as [ra rs ml sg mb pc ev pd rr]. cbn in *. subst ra.
  destruct ev; cbn in *; step_cases;
    unfold supplied; cbn; repeat split; auto.
  all: try solve [ intros x Hx; apply Hi; now right
                 | apply Hi; now left
                 | intros Hpo [H|H]; [apply Hv; [assumption | now left] | discriminate]
                 | right; eexists; split; [eassumption | reflexivity]
                 | intros _ _; eexists; split; [eassumption | reflexivity]
                 | destruct pc; cbn in *; auto; try discriminate ].
  - right. eexists. split; [apply Hw | reflexivity].
  - intros Hpo. destruct Hw as [_ F]. congruence.
Qed.

Lemma wakeup_supplied (po : bool) (s s' : system) :
  supplied po c e p all s -> spurious_wakeup s = Some s' -> supplied po c e p all s'.
Proof.
  intros (He & Hp & Hi & Hw & Hn & Hv & Hc & Hm & Hl & Hr) Hs. unfold spurious_wakeup in Hs.
  destruct s as [ra rs ml sg mb pc ev pd rr]. cbn in *.
  destruct pc; try discriminate. inversion Hs; subst; clear Hs.
  unfold supplied; cbn. repeat split; auto.
Qed.

Lemma flag_store_first_supplied (s s' : system) :
  supplied false c e p all s -> flag_store_first s = Some s' -> supplied false c e p all s'.
Proof.
  intros (He & Hp & Hi & Hw & Hn & Hv & Hc & Hm & Hl & Hr) Hs. unfold flag_store_first in Hs.
  destruct s as [ra rs ml sg mb pc ev pd rr]. cbn in *.
  destruct ev; try discriminate. inversion Hs; subst; clear Hs.
  unfold supplied; cbn. repeat split; auto; try discriminate.
  destruct pc; cbn in *; auto.
Qed.

Lemma run_supplied (po : bool) (sched : list actor) :
  (po = true -> program_order sched) ->
  forall s s', supplied po c e p all s -> run c sched s = Some s' -> supplied po c e p all s'.
Proof.
  induction sched as [|a sched IH]; intros Hpo s s' H Hr; cbn in Hr.
  - now inversion Hr; subst.
  - destruct (step c a s) as [s1|] eqn:E; [|discriminate].
    apply (IH (fun H0 H1 => Hpo H0 (or_intror H1)) s1 s'); [|assumption].
    destruct a; cbn in E.
    + now apply (caller_step_supplied po s s1).
    + now apply (evaluator_step_supplied po s s1).
    + now apply (wakeup_supplied po s s1).
    + destruct po.
      * exfalso. apply (Hpo eq_refl). now left.
      * now apply (flag_store_first_supplied s s1).
Qed.

(** The value [make_nif_call] returns when the evaluator completes the
    call any number of times, however the completions interleave with the
    caller.  When the stores of [nif_call_evaluated] take effect in
    program order, it is the copy into the caller's environment of one of
    the values passed to [nif_call_evaluated].  Nothing in the source
    enforces that order, and without it the value returned is the copy of
    one of those values or of the initial nil; in no case is it a value
    nobody supplied. *)
Theorem make_nif_call_returns_a_completion (sched : list actor) (x : ERL_NIF_TERM) :
  make_nif_call c o all sched = Some x ->
  (program_order sched ->
   exists v, In v all /\ x = enif_make_copy (caller_env c) v /\ same_value x v) /\
  (exists v, (In v all \/ v = kAtomNil) /\
             x = enif_make_copy (caller_env c) v /\ same_value x v).
Proof.
  unfold make_nif_call.
  change (prepare_nif_call o) with
    (Some r, [Obtained TheResource; Obtained TheEnv; Obtained TheMutex; Obtained TheCond]).
  cbn [o enif_alloc_resource].
  destruct (run c sched (started p r all)) as [s|] eqn:E; [|discriminate].
  destruct (caller s) as [| | | | | | | |y] eqn:C; try discriminate.
  intros H; inversion H; subst y. split.
  - intros Hpo.
    pose proof (run_supplied true sched (fun _ => Hpo) _ _ (started_supplied true) E)
      as (_ & _ & _ & _ & _ & _ & Hc & _).
    rewrite C in Hc. destruct Hc as [(w & Hin & ->) | [F _]]; [|discriminate F].
    exists w. repeat split. assumption.
  - pose proof (run_supplied false sched (fun F => False_ind _ (Bool.diff_false_true F))
                             _ _ (started_supplied false) E)
      as (_ & _ & _ & _ & _ & _ & Hc & _).
    rewrite C in Hc. destruct Hc as [(w & Hin & ->) | [_ ->]].
    + exists w. repeat split. now left.
    + exists kAtomNil. repeat split. now right.
Qed.

(** The discipline of [make_nif_call] in every reachable state of a call:
    the mutex is held exactly from the lock to the wait or the unlock; one
    request is sent, and only one; the reference to the context is given
    up exactly when the call has returned; and the request, owned by the
    context's environment, carries a callback term from which
    [nif_call_evaluated] gets the context and answers ok. *)
Theorem call_discipline (sched : list actor) (s : system) :
  run c sched (started p r all) = Some s ->
  mutex_locked s = match caller s with
                   | AtTest | AtWait | AtUnlock => true
                   | _ => false
                   end /\
  mailbox s = match caller s with AtSend => [] | _ => [request c e p] end /\
  reference_released s = match caller s with Returned _ => true | _ => false end /\
  (forall env msg argv1,
      In msg (mailbox s) ->
      term_env msg = e /\
      exists cb, callback_of env msg = Some cb /\
                 enif_get_resource env cb CallbackNifRes_type = Some (res_at s) /\
                 exists s', nif_call_evaluated env cb argv1 s
                            = Some (enif_make_atom env "ok", s')).
Proof.
  intros E.
  pose proof (run_supplied false sched (fun F => False_ind _ (Bool.diff_false_true F))
                           _ _ (started_supplied false) E)
    as (He & Hp & _ & _ & _ & _ & _ & Hm & Hl & Hr).
  repeat split; try assumption.
  - rewrite Hm in H. destruct (caller s); cbn in H; try contradiction;
      destruct H as [<- | []]; reflexivity.
  - rewrite Hm in H.
    assert (Hmsg : msg = request c e p).
    { destruct (caller s); cbn in H; try contradiction; destruct H as [<- | []]; reflexivity. }
    subst msg. eexists. split; [reflexivity|]. split; [now rewrite Hp|].
    unfold nif_call_evaluated, store_return_value. cbn. rewrite He. eexists. reflexivity.
Qed.

End AnyCompletions.

(* ================================================================== *)
(** * The properties at concrete inputs *)
(* ================================================================== *)

Section NifExamples.

(** A library whose arrays are of type [float32] and of shape [2, 3], and
    that refuses to build an array from data. *)
Let sample : library :=
  mkLibrary (fun _ _ => Returns (MlxArray 1)) (fun _ _ => Returns (MlxArray 2))
            (fun _ _ _ => Returns (MlxArray 3)) (fun _ _ => Returns (MlxArray 4))
            (fun _ _ => Returns (MlxArray 5)) (fun _ _ _ => Throws "bad data")
            (fun _ => float32) (fun _ => [2; 3])
            (fun d => match d with
                      | bool_ | uint8 | int8 => 1
                      | uint16 | int16 | float16 | bfloat16 => 2
                      | uint32 | int32 | float32 => 4
                      | _ => 8
                      end).

(** A memory in which every block holds a live array with counter 1, and
    a token for block 5. *)
Let m0 : memory := fun _ => mkResource (MlxArray 0) 0%nat 1 false.
Let tok5 : ERL_NIF_TERM := enif_make_resource 1%nat ARRAY_TYPE 5%nat.
Let eight_bytes : list Byte.byte := repeat Byte.x00 8.

Lemma blob_too_small_exact_witness :
  (forall b, blob_too_small 24 4 [2; 3] = Some b ->
             (b = false <-> product [2; 3] * 4 <= 24)) /\
  (Forall (fun d => 0 < d) [2; 3] -> product [2; 3] <= INT_MAX ->
   blob_too_small 24 4 [2; 3] = Some (negb (product [2; 3] * 4 <=? 24))).
Proof.
  apply (blob_too_small_exact 24 4 [2; 3]).
  - lia.
  - repeat (apply Forall_cons; [lia|]). apply Forall_nil.
Defined.

Lemma blob_too_small_edges_witness :
  blob_too_small 10 4 [] = Some (10 <? 4) /\
  (forall shape b, In 0 shape -> blob_too_small 10 4 shape = Some b -> b = false) /\
  (forall shape b, product shape < 0 -> blob_too_small 10 4 shape = Some b -> b = true) /\
  (forall shape, Forall (fun d => 0 <= d) shape -> INT_MAX < product shape ->
                 blob_too_small 10 4 shape = None) /\
  (forall d1 d2, - INT_MAX <= d1 <= INT_MAX ->
                 blob_too_small 10 4 [- d1; - d2] = blob_too_small 10 4 [d1; d2]).
Proof.
  apply (blob_too_small_edges 10 4).
  - split; [lia | reflexivity].
  - lia.
Defined.

Lemma from_blob_guards_the_library_witness :
  6 = product [2; 3] /\
  (Z.of_nat (List.length eight_bytes) < 6 * 4 ->
   forall lib', size lib' = size sample ->
     from_blob lib' 1%nat eight_bytes [2; 3] "float32" float32 (Some 7%nat) m0
     = Some (nx_nif_error 1%nat "Binary size is too small for the requested shape", m0)) /\
  (6 * 4 <= Z.of_nat (List.length eight_bytes) ->
   from_blob sample 1%nat eight_bytes [2; 3] "float32" float32 (Some 7%nat) m0
   = Some (match array_from_data sample eight_bytes [2; 3] float32 with
           | Returns a =>
               (nx_nif_ok 1%nat (fst (create_array_resource 1%nat (Some 7%nat) a m0)),
                snd (create_array_resource 1%nat (Some 7%nat) a m0))
           | Throws what => (nx_nif_error 1%nat what, m0)
           | ThrowsUnknown =>
               (nx_nif_error 1%nat "Unknown error creating array from binary data", m0)
           end)).
Proof.
  apply (from_blob_guards_the_library sample 1%nat eight_bytes [2; 3] "float32" float32
                                      4 6 (Some 7%nat) m0).
  - reflexivity.
  - lia.
  - repeat (apply Forall_cons; [lia|]). apply Forall_nil.
  - reflexivity.
Defined.

Lemma to_blob_bytes_within_witness :
  to_blob_bytes eight_bytes 4 (Some 1)
  = Some (firstn (Z.to_nat (1 * 4)) eight_bytes) /\
  Z.of_nat (List.length (firstn (Z.to_nat (1 * 4)) eight_bytes)) = 1 * 4 /\
  to_blob_bytes eight_bytes 4 None = Some eight_bytes /\
  (1 * 4 = Z.of_nat (List.length eight_bytes) ->
   to_blob_bytes eight_bytes 4 (Some 1) = Some eight_bytes).
Proof.
  apply (to_blob_bytes_within eight_bytes 4 1).
  - lia.
  - lia.
  - split; [vm_compute; discriminate | reflexivity].
Defined.

Lemma to_blob_bytes_beyond_witness :
  to_blob_bytes eight_bytes 4 (Some 3) = None.
Proof.
  apply (to_blob_bytes_beyond eight_bytes 4 3).
  - reflexivity.
  - left. split; reflexivity.
Defined.

Lemma reading_nifs_restore_the_handle_witness :
  snd (scalar_type sample 1%nat tok5 m0) 5%nat = m0 5%nat /\
  snd (shape sample 1%nat tok5 m0) 5%nat = m0 5%nat /\
  snd (sum sample 1%nat tok5 (int_list [0]) (Plain (Integer 0)) (Some 6%nat) m0) 5%nat
  = m0 5%nat /\
  snd (to_type sample 1%nat tok5 (Plain (Atom "int32")) (Some 6%nat) m0) 5%nat = m0 5%nat.
Proof.
  apply (reading_nifs_restore_the_handle
           sample 1%nat tok5 5%nat (int_list [0]) (Plain (Integer 0)) (Some 6%nat) m0).
  - reflexivity.
  - split; vm_compute; discriminate.
  - discriminate.
Defined.

Lemma to_type_rejects_unknown_types_witness :
  fst (to_type sample 1%nat tok5 (Plain (Atom "float64")) (Some 6%nat) m0)
  = inr (Some (error_string 1%nat "Unknown dtype: float64")) /\
  (forall lib' alloc',
      to_type lib' 1%nat tok5 (Plain (Atom "float64")) alloc' m0
      = to_type sample 1%nat tok5 (Plain (Atom "float64")) (Some 6%nat) m0).
Proof.
  apply (to_type_rejects_unknown_types
           sample 1%nat tok5 5%nat eq_refl (Plain (Atom "float64")) (Some 6%nat) m0).
  - discriminate.
  - intros name d H. inversion H; subst. destruct d; discriminate.
Defined.

Lemma scalar_type_names_the_dtype_witness :
  fst (scalar_type sample 1%nat tok5 m0)
  = inr (nx_nif_ok 1%nat (enif_make_atom 1%nat "float32")) /\
  string2dtype "float32" = Returns float32.
Proof.
  apply (scalar_type_names_the_dtype sample 1%nat tok5 5%nat eq_refl m0).
  discriminate.
Defined.


(** A call of [add] on [1, 2], which the evaluator completes twice, first
    with 3 and then with 4, before the caller wakes. *)
Let c : call :=
  mkCall 1%nat 9%nat (mkTerm 1%nat (Atom "add"))
         (mkTerm 1%nat (Tuple [Integer 1; Integer 2])).
Let three : ERL_NIF_TERM := mkTerm 3%nat (Integer 3).
Let four : ERL_NIF_TERM := mkTerm 3%nat (Integer 4).
Let completed_twice : list actor :=
  [Caller; Caller; Caller; Caller;
   Evaluator; Evaluator; Evaluator; Evaluator;
   Evaluator; Evaluator; Evaluator; Evaluator;
   Caller; Caller; Caller; Caller].

Lemma make_nif_call_returns_a_completion_witness :
  let x := mkTerm 1%nat (Integer 4) in
  exists v, In v [three; four] /\ x = enif_make_copy (caller_env c) v /\ same_value x v.
Proof.
  intros x.
  apply (proj1 (make_nif_call_returns_a_completion
                  c 40%nat 2%nat 41%nat 42%nat [three; four] completed_twice x eq_refl)).
  intros H. repeat (destruct H as [H | H]; [discriminate H|]). exact H.
Defined.

Lemma call_discipline_witness :
  let s := mkSystem 40%nat
                    (mkRes (Some 2%nat) (Some 41%nat) (Some 42%nat) kAtomNil false)
                    false 0%nat
                    [mkTerm 2%nat (Tuple [Atom "add"; Tuple [Integer 1; Integer 2];
                                          ResourceRef CallbackNifRes_type 40%nat])]
                    Sleeping Idle [three; four] false in
  mutex_locked s = false /\
  mailbox s = [request c 2%nat 40%nat] /\
  reference_released s = false /\
  (forall env msg argv1,
      In msg (mailbox s) ->
      term_env msg = 2%nat /\
      exists cb, callback_of env msg = Some cb /\
                 enif_get_resource env cb CallbackNifRes_type = Some (res_at s) /\
                 exists s', nif_call_evaluated env cb argv1 s
                            = Some (enif_make_atom env "ok", s')).
Proof.
  intros s.
  apply (call_discipline c 40%nat 2%nat 41%nat 42%nat [three; four]
                         [Caller; Caller; Caller; Caller] s).
  reflexivity.
Defined.

End NifExamples.
